(** * chatbot: the intent vocabulary (chatbot/patterns.py) and the
      prediction policy (chatbot/brain.py)

    A shallow embedding of the [Patterns] class and of the inference half of
    [ChatBotBrain].  Python objects that are mutated in place (the
    [self._patterns] dictionary, the state of the [random] module, the pickle
    files written by [_save]) live in an explicit [World]; methods are
    computations in a state-and-exception monad over it.  What the
    repository takes from other packages (the Unicode tables behind [\w] and
    [str.lower], the Snowball stemmer, the NLTK stop list, the Keras
    classifier) is a parameter of the development. *)

From Stdlib Require Import QArith Ascii.
From stdpp Require Import gmap strings list sorting.

(** ** Exceptions and the world *)

(** The Python exceptions the modelled code can raise; [OtherException]
    is an exception of any other class, raised inside a library. *)
Inductive exn : Type :=
  | KeyError (key : string)
  | IndexError
  | ValueError
  | AttributeError
  | FileNotFoundError
  | OtherException (name : string).

(** A value of [self._patterns["tags"]]: [{"stems": [...], "answers": [...]}]. *)
Record Entry : Type := mkEntry {
  stems : list string;
  answers : list string
}.

(** The dictionary [self._patterns]: key ["tags"] is [tags], key ["stems"]
    is [all_stems] (what [_get_all_stems] returns). *)
Record PatternsDict : Type := mkPatterns {
  tags : gmap string Entry;
  all_stems : list string
}.

(** The random source: an unbounded sequence of draws and how many of them
    were consumed. *)
Record Random : Type := mkRandom {
  draws : nat → nat;
  consumed : nat
}.

(** Everything the methods can change: the dictionary of the [Patterns]
    instance, the random generator and the objects pickled so far. *)
Record World : Type := mkWorld {
  _patterns : PatternsDict;
  random : Random;
  pickles : list PatternsDict
}.

(** [Patterns()] with an empty path. *)
Definition empty_patterns : PatternsDict :=
  {| tags := ∅; all_stems := [] |}.

Definition fresh_world (r : Random) : World :=
  {| _patterns := empty_patterns; random := r; pickles := [] |}.

(** ** The monad: state passing, an exception keeps the state reached *)

Definition M (A : Type) : Type := World → (exn + A) * World.

Definition ret {A} (a : A) : M A := λ w, (inr a, w).

Definition bind {A B} (m : M A) (k : A → M B) : M B :=
  λ w, match m w with
       | (inl e, w') => (inl e, w')
       | (inr a, w') => k a w'
       end.

Definition raise {A} (e : exn) : M A := λ w, (inl e, w).

Definition lift {A} (r : exn + A) : M A :=
  match r with inl e => raise e | inr a => ret a end.

Notation "x <~ c ;; k" := (bind c (λ x, k))
  (at level 100, c at next level, right associativity, only parsing).
Notation "c ;;; k" := (bind c (λ _, k))
  (at level 100, k at level 200, right associativity, only parsing).

(** Reading and rebinding [self._patterns]. *)
Definition read : M PatternsDict := λ w, (inr (_patterns w), w).

Definition with_patterns (p : PatternsDict) (w : World) : World :=
  {| _patterns := p; random := random w; pickles := pickles w |}.

Definition write (p : PatternsDict) : M unit :=
  λ w, (inr tt, with_patterns p w).

(** [for x in l: body(x)] *)
Fixpoint for_ {A} (l : list A) (body : A → M unit) : M unit :=
  match l with
  | [] => ret tt
  | x :: l' => body x ;;; for_ l' body
  end.

(** Nested loops that append to a local list: the rows each iteration
    appends, in order. *)
Fixpoint collect {A B} (l : list A) (body : A → M (list B)) : M (list B) :=
  match l with
  | [] => ret []
  | x :: l' => rows <~ body x ;; rest <~ collect l' body ;; ret (rows ++ rest)
  end.

(** ** Python built-ins *)

(** [sorted] on strings: code point order, which on UTF-8 text is the
    byte-wise lexicographic order [String.le]. *)
Definition sorted (l : list string) : list string := merge_sort String.le l.

(** [sorted(set(l))]: the iteration order of the set is lost in the sort. *)
Definition sorted_set (l : list string) : list string := sorted (remove_dups l).

(** [l.index(x)]: the first position whose item is [==] to [x]. *)
Definition index {A} (eqv : relation A) `{∀ x y, Decision (eqv x y)}
    (l : list A) (x : A) : exn + nat :=
  match list_find (λ y, eqv y x) l with
  | Some (i, _) => inr i
  | None => inl ValueError
  end.

(** [==] on floats that are not NaN. *)
#[global] Instance Qeq_decision (x y : Q) : Decision (Qeq x y) := Qeq_dec x y.

(** [d[key]] on a decoded JSON object whose key may be absent. *)
Definition getitem {A} (key : string) (field : option A) : exn + A :=
  match field with
  | Some v => inr v
  | None => inl (KeyError key)
  end.

(** [random.Random._randbelow(n)] *)
Definition randbelow (n : nat) : M nat :=
  λ w, let r := random w in
       (inr (draws r (consumed r) `mod` n),
        {| _patterns := _patterns w;
           random := {| draws := draws r; consumed := S (consumed r) |};
           pickles := pickles w |}).

(** [random.choice(seq)]: [IndexError] on an empty sequence. *)
Definition choice {A} (seq : list A) : M A :=
  match seq with
  | [] => raise IndexError
  | _ => i <~ randbelow (length seq) ;;
         lift (match seq !! i with Some a => inr a | None => inl IndexError end)
  end.

(** [x[i], x[j] = x[j], x[i]] *)
Definition swap {A} (x : list A) (i j : nat) : list A :=
  match x !! i, x !! j with
  | Some a, Some b => <[j:=a]> (<[i:=b]> x)
  | _, _ => x
  end.

(** [random.shuffle(x)]:
    [for i in reversed(range(1, len(x))): j = randbelow(i + 1); swap]. *)
Fixpoint shuffle_from {A} (i : nat) (x : list A) : M (list A) :=
  match i with
  | 0 => ret x
  | S i' => j <~ randbelow (S i) ;; shuffle_from i' (swap x i j)
  end.

Definition shuffle {A} (x : list A) : M (list A) :=
  shuffle_from (length x - 1) x.

(** ** The intents file *)

(** One record of ["intents"]; a key of the JSON object may be absent. *)
Record Intent : Type := mkIntent {
  tag : option string;
  patterns : option (list string);
  responses : option (list string);
  context : option (list string)
}.

(** [if intent:] a dictionary is true when it has at least one key. *)
Definition truthy (intent : Intent) : bool :=
  bool_decide (is_Some (tag intent)) || bool_decide (is_Some (patterns intent))
  || bool_decide (is_Some (responses intent)) || bool_decide (is_Some (context intent)).

(** ** class Patterns *)

(** Accessors of the dictionary (patterns.py, [_get_all_tags],
    [_get_all_stems], [_get_stems], [_get_answers]).  [d.get(k)] is [None]
    on a missing key and [None.get] raises [AttributeError]. *)
Definition _get_all_tags (p : PatternsDict) : list string :=
  sorted ((map_to_list (tags p)).*1).

Definition _get_all_stems (p : PatternsDict) : list string := all_stems p.

Definition _get_stems (p : PatternsDict) (t : string) : exn + list string :=
  match tags p !! t with
  | Some e => inr (stems e)
  | None => inl AttributeError
  end.

Definition _get_answers (p : PatternsDict) (t : string) : exn + list string :=
  match tags p !! t with
  | Some e => inr (answers e)
  | None => inl AttributeError
  end.

(** [_set_answers] (patterns.py, l. 220):
    [self._patterns["tags"][tag]["answers"] += answers] *)
Definition _set_answers (t : string) (new : list string) : M unit :=
  p <~ read ;;
  match tags p !! t with
  | None => raise (KeyError t)
  | Some e =>
      write {| tags := <[t := {| stems := stems e; answers := answers e ++ new |}]> (tags p);
               all_stems := all_stems p |}
  end.

(** [self._patterns["tags"][tag]["stems"].append(w)] *)
Definition append_tag_stem (t w : string) : M unit :=
  p <~ read ;;
  match tags p !! t with
  | None => raise (KeyError t)
  | Some e =>
      write {| tags := <[t := {| stems := stems e ++ [w]; answers := answers e |}]> (tags p);
               all_stems := all_stems p |}
  end.

(** [self._patterns["stems"].append(w)] *)
Definition append_stem (w : string) : M unit :=
  p <~ read ;;
  write {| tags := tags p; all_stems := all_stems p ++ [w] |}.

(** The body of the inner loop of [_set_stems].  [tag_stems] and [all_stems]
    are bound once, before the loops, to the very lists stored in the
    dictionary, so each membership test sees the appends made so far: the
    model reads the lists again. *)
Definition _set_stems_word (t w : string) : M unit :=
  p <~ read ;;
  tag_stems <~ lift (_get_stems p t) ;;
  (if bool_decide (w ∈ tag_stems) then ret tt else append_tag_stem t w) ;;;
  p <~ read ;;
  (if bool_decide (w ∈ _get_all_stems p) then ret tt else append_stem w).

(** [_set_stems] (patterns.py, l. 269): [stems] holds one list of stems
    per pattern. *)
Definition _set_stems (t : string) (stems : list (list string)) : M unit :=
  p <~ read ;;
  tag_stems <~ lift (_get_stems p t) ;;
  for_ stems (λ l, for_ l (λ w, _set_stems_word t w)).

(** [_sort_all_stems] (patterns.py, l. 316): what one turn of its loop
    makes of an entry, and the turn itself. *)
Definition sort_entry (e : Entry) : Entry :=
  {| stems := sorted_set (stems e); answers := answers e |}.

Definition _sort_tag_stems (t : string) : M unit :=
  p <~ read ;;
  s <~ lift (_get_stems p t) ;;
  match tags p !! t with
  | None => raise (KeyError t)
  | Some e =>
      write {| tags := <[t := {| stems := sorted_set s; answers := answers e |}]> (tags p);
               all_stems := all_stems p |}
  end.

(** The loop runs over the keys of ["tags"]; each turn rebinds the stems
    of its own key only, so the order of the keys is immaterial. *)
Definition _sort_all_stems : M unit :=
  p <~ read ;;
  write {| tags := tags p; all_stems := sorted_set (_get_all_stems p) |} ;;;
  p <~ read ;;
  for_ ((map_to_list (tags p)).*1) _sort_tag_stems.

(** [_save(var, path)] (patterns.py, l. 321): the object is pickled; the
    file name is not modelled. *)
Definition _save (var : PatternsDict) : M unit :=
  λ w, (inr tt, {| _patterns := _patterns w; random := random w;
                   pickles := pickles w ++ [var] |}).

Section Patterns.

(** What [__init__] fetches from other packages: the character class
    [\w] and the case mapping of [str.lower] (both Unicode tables of the
    interpreter), [FrenchStemmer().stem] and
    [nltk.corpus.stopwords.words("french")]. *)
Variable word_char : ascii → bool.
Variable lower_char : ascii → ascii.
Variable stem : string → string.
Variable _stoplist : list string.

(** [word.lower()] *)
Fixpoint lower (word : string) : string :=
  match word with
  | EmptyString => EmptyString
  | String c rest => String (lower_char c) (lower rest)
  end.

(** [nltk.RegexpTokenizer(r"\w+").tokenize(text)] is
    [re.findall(r"\w+", text)]: the maximal runs of word characters, from
    left to right.  [cur] is the run being read. *)
Fixpoint findall_from (cur text : string) : list string :=
  match text with
  | EmptyString => if decide (cur = "") then [] else [cur]
  | String c rest =>
      if word_char c then findall_from (cur +:+ String c "") rest
      else (if decide (cur = "") then [] else [cur]) ++ findall_from "" rest
  end.

Definition tokenize (text : string) : list string := findall_from "" text.

(** [_stemming] (patterns.py, l. 250):
    [[self._stemmer.stem(word.lower()) for word in tokens
      if not word in self._stoplist]] *)
Definition _stemming (pattern : string) : list string :=
  let tokens := tokenize pattern in
  (λ word, stem (lower word)) <$> filter (λ word, word ∉ _stoplist) tokens.

(** [_set_intent] (patterns.py, l. 192) *)
Definition _set_intent (intent : Intent) : M unit :=
  t <~ lift (getitem "tag" (tag intent)) ;;
  p <~ read ;;
  (if bool_decide (t ∈ _get_all_tags p) then ret tt
   else write {| tags := <[t := {| stems := []; answers := [] |}]> (tags p);
                 all_stems := all_stems p |}) ;;;
  r <~ lift (getitem "responses" (responses intent)) ;;
  _set_answers t r ;;;
  ps <~ lift (getitem "patterns" (patterns intent)) ;;
  _set_stems t (_stemming <$> ps).

(** [_parse_intents_file] (patterns.py, l. 175).  The file at [path] is
    [None] when [os.path.isfile] fails, else the list under the key
    ["intents"] of the decoded JSON. *)
Definition _parse_intents_file (file : option (list Intent)) : M unit :=
  match file with
  | None => raise FileNotFoundError
  | Some intents =>
      for_ intents (λ intent, if truthy intent then _set_intent intent else ret tt)
  end.

(** [_make_training_data] (patterns.py, l. 335).  One row of
    [training_data]: [[stems_bin, tags_bin]]. *)
Definition training_row (all_tags all_stems : list string) (t s : string)
    : exn + (list bool * list bool) :=
  let tags_false := replicate (length all_tags) false in
  let stems_false := replicate (length all_stems) false in
  match index (=) all_stems s with
  | inl e => inl e
  | inr i =>
      let stems_bin := <[i := true]> stems_false in
      match index (=) all_tags t with
      | inl e => inl e
      | inr j =>
          let tags_bin := <[j := true]> tags_false in
          inr (stems_bin, tags_bin)
      end
  end.

(** The rows in the order the two loops append them. *)
Definition training_rows : M (list (list bool * list bool)) :=
  p <~ read ;;
  let all_tags := _get_all_tags p in
  let all_stems := _get_all_stems p in
  collect all_tags (λ t,
    p <~ read ;;
    ss <~ lift (_get_stems p t) ;;
    collect ss (λ s,
      row <~ lift (training_row all_tags all_stems t s) ;;
      ret [row])).

(** [nparray(training_data, dtype=object)] followed by [[:,0]] and
    [[:,1]]: an empty list gives a one-dimensional array, on which the
    two-index slice raises [IndexError]; otherwise the slices are the
    first and the second column. *)
Definition columns (training_data : list (list bool * list bool))
    : exn + (list (list bool) * list (list bool)) :=
  match training_data with
  | [] => inl IndexError
  | _ => inr (training_data.*1, training_data.*2)
  end.

Definition _make_training_data : M (list (list bool) * list (list bool)) :=
  training_data <~ training_rows ;;
  training_data <~ shuffle training_data ;;
  lift (columns training_data).

(** [convert_intents] (patterns.py, l. 132) *)
Definition convert_intents (file : option (list Intent))
    : M (list (list bool) * list (list bool)) :=
  _parse_intents_file file ;;;
  _sort_all_stems ;;;
  p <~ read ;;
  _save p ;;;
  _make_training_data.

(** [convert_sentence] (patterns.py, l. 356) *)
Definition convert_sentence (sentence : string) : M (list bool) :=
  let stems := _stemming sentence in
  p <~ read ;;
  ret ((λ w, bool_decide (w ∈ stems)) <$> _get_all_stems p).

(** [_get_tag_by_index] (patterns.py, l. 410):
    [self._get_all_tags()[index] if index >= 0 else "noanswer"] *)
Definition _get_tag_by_index (index : Z) : M string :=
  p <~ read ;;
  if decide (0 ≤ index)%Z then
    match _get_all_tags p !! Z.to_nat index with
    | Some t => ret t
    | None => raise IndexError
    end
  else ret "noanswer".

(** [choose_answer] (patterns.py, l. 382) *)
Definition choose_answer (index : Z) : M string :=
  intent <~ _get_tag_by_index index ;;
  p <~ read ;;
  a <~ lift (_get_answers p intent) ;;
  choice a.

(** ** class ChatBotBrain (inference) *)

(** [self._model.predict(numpy.array([pattern]))[0]]: the classifier.  A
    finite float, single or double, is the rational it denotes and
    comparisons of floats are exact, so probabilities are rationals. *)
Variable predict : list bool → list Q.

(** The literal [0.9] of [_predict]: the double nearest to 9/10, which is
    [8106479329266893 / 2^53], a little above 9/10. *)
Definition float_0_9 : Q := 8106479329266893 # 9007199254740992.

(** [item > max_item] *)
Definition Qgtb (x y : Q) : bool := negb (Qle_bool x y).

(** [max(results)]: the first item is kept until a greater one comes. *)
Fixpoint max_from (max_item : Q) (l : list Q) : Q :=
  match l with
  | [] => max_item
  | item :: l' => max_from (if Qgtb item max_item then item else max_item) l'
  end.

Definition max (results : list Q) : exn + Q :=
  match results with
  | [] => inl ValueError
  | item :: l => inr (max_from item l)
  end.

(** [_predict] (brain.py, l. 233): the float [0.9] is the threshold. *)
Definition _predict (pattern : list bool) : M Z :=
  let results := predict pattern in
  m <~ lift (max results) ;;
  index <~ lift (index Qeq results m) ;;
  match results !! index with
  | Some r => ret (if Qgtb r float_0_9 then Z.of_nat index else (-1)%Z)
  | None => raise IndexError
  end.

(** [_which_intent] and [answer] (brain.py, l. 212 and l. 188) *)
Definition _which_intent (sentence : string) : M Z :=
  pattern <~ convert_sentence sentence ;;
  _predict pattern.

Definition answer (sentence : string) : M string :=
  i <~ _which_intent sentence ;;
  choose_answer i.

End Patterns.

(** ** The tables for ASCII text *)

Definition ascii_word (c : ascii) : bool :=
  let n := nat_of_ascii c in
  (48 <=? n) && (n <=? 57) || (65 <=? n) && (n <=? 90)
  || (97 <=? n) && (n <=? 122) || (n =? 95).

Definition ascii_lower (c : ascii) : ascii :=
  let n := nat_of_ascii c in
  if (65 <=? n) && (n <=? 90) then ascii_of_nat (n + 32) else c.

(** ** The name of the pickle (patterns.py, [convert_intents], l. 169-172) *)

(** [s.split(sep)] for a separator of one character: the pieces between
    the separators, at least one. *)
Fixpoint str_split (sep : ascii) (s : string) : list string :=
  match s with
  | EmptyString => [""]
  | String c rest =>
      if decide (c = sep) then "" :: str_split sep rest
      else match str_split sep rest with
           | piece :: pieces => String c piece :: pieces
           | [] => [String c ""]
           end
  end.

(** [sep.join(l)] *)
Fixpoint str_join (sep : string) (l : list string) : string :=
  match l with
  | [] => ""
  | piece :: l' =>
      match l' with
      | [] => piece
      | _ => piece +:+ sep +:+ str_join sep l'
      end
  end.

(** [basename = ".".join(path.split(".")[:-1])],
    [basename = basename.split("/")[-1]], and the file written is
    [basename + ".pkl"].  [l[-1]] raises [IndexError] on an empty list. *)
Definition pickle_name (path : string) : exn + string :=
  let basename := str_join "." (removelast (str_split "." path)) in
  match last (str_split "/" basename) with
  | Some basename => inr (basename +:+ ".pkl")
  | None => inl IndexError
  end.

(** ** Loading (patterns.py and brain.py, [__init__]) *)

(** A [ChatBotBrain] instance: [self._verbose], [self._patterns._patterns]
    (the dictionary of its [Patterns]) and [self._model], over the type of
    the Keras models. *)
Record ChatBotBrain (Model : Type) : Type := mkChatBotBrain {
  _verbose : bool;
  brain_patterns : PatternsDict;
  _model : Model
}.
Arguments mkChatBotBrain {Model} _ _ _.
Arguments _verbose {Model} _.
Arguments brain_patterns {Model} _.
Arguments _model {Model} _.

Section Files.

(** What the constructors get from outside:
    - [isfile] is [os.path.isfile];
    - [nltk_setup] is the outcome of the first lines of
      [Patterns.__init__] (the three [nltk.download], [FrenchStemmer()] and
      the stop list), which fail when the corpora cannot be had;
    - [pickle_load path] is the outcome of
      [with open(path, "rb") as f: pickle.load(f)], which fails on a file
      that cannot be read or is not a pickle (of the pickles that load,
      those that hold a dictionary of patterns are covered);
    - [load_model] is Keras's, which fails on a file that is not a saved
      model, and [Sequential] is the model [Sequential()]. *)
Variable isfile : string → bool.
Variable nltk_setup : exn + unit.
Variable pickle_load : string → exn + PatternsDict.
Context {Model : Type}.
Variable load_model : string → exn + Model.
Variable Sequential : Model.

(** [Patterns.__init__(path)] (patterns.py, l. 114): the dictionary of the
    new instance. *)
Definition Patterns_init (path : string) : exn + PatternsDict :=
  match nltk_setup with
  | inl e => inl e
  | inr _ =>
      if decide (path ≠ "") then
        if isfile path then pickle_load path else inl FileNotFoundError
      else inr empty_patterns
  end.

(** The loop [for f in [model_path, pickle_path]] of
    [ChatBotBrain.__init__]. *)
Fixpoint check_files (fs : list string) : exn + unit :=
  match fs with
  | [] => inr tt
  | f :: fs' => if isfile f then check_files fs' else inl FileNotFoundError
  end.

(** [ChatBotBrain.__init__(model_path, pickle_path, verbose)] (brain.py,
    l. 90): the check of the files, then [Patterns(pickle_path)], then
    [load_model(model_path) if model_path else Sequential()]. *)
Definition ChatBotBrain_init (model_path pickle_path : string) (verbose : bool)
    : exn + ChatBotBrain Model :=
  match (if decide (model_path ≠ "" ∨ pickle_path ≠ "")
         then check_files [model_path; pickle_path] else inr tt) with
  | inl e => inl e
  | inr _ =>
      match Patterns_init pickle_path with
      | inl e => inl e
      | inr patterns =>
          match (if decide (model_path ≠ "") then load_model model_path
                 else inr Sequential) with
          | inl e => inl e
          | inr model => inr (mkChatBotBrain verbose patterns model)
          end
      end
  end.

End Files.

(** ** wschatbot.py: [sanitize] *)

(** A message is a sequence of code points; the code points of an ASCII
    literal. *)
Definition codes (s : string) : list N :=
  N_of_ascii <$> Strings.String.list_ascii_of_string s.

(** [s.replace(old, new)] for an [old] of one character. *)
Definition str_replace (old : N) (new : list N) (s : list N) : list N :=
  s ≫= λ c, if decide (c = old) then new else [c].

(** [html.escape(s)], quotes included: [&] (38) first, then [<] (60),
    [>] (62), the double quote (34) and the single quote (39). *)
Definition escape (s : list N) : list N :=
  let s := str_replace 38 (codes "&amp;") s in
  let s := str_replace 60 (codes "&lt;") s in
  let s := str_replace 62 (codes "&gt;") s in
  let s := str_replace 34 (codes "&quot;") s in
  str_replace 39 (codes "&#x27;") s.

Section Sanitize.

(** The white space that [str.strip()] removes (a Unicode table of the
    interpreter). *)
Variable isspace : N → bool.

Fixpoint lstrip (s : list N) : list N :=
  match s with
  | [] => []
  | c :: s' => if isspace c then lstrip s' else s
  end.

(** [s.strip()] *)
Definition strip (s : list N) : list N :=
  reverse (lstrip (reverse (lstrip s))).

(** [sanitize(msg)]; the backslash is 92. *)
Definition sanitize (msg : list N) : list N :=
  match msg with
  | [] => []
  | _ =>
      let msg := take 256 (strip msg) in
      let msg := str_replace 92 [] msg in
      escape msg
  end.

End Sanitize.

(** ASCII white space. *)
Definition ascii_space (c : N) : bool :=
  bool_decide (c ∈ [9; 10; 11; 12; 13; 28; 29; 30; 31; 32]%N).

(** * Vocabulary of the statements *)

(** [m] may consume random draws but leaves [self._patterns] and the
    pickled objects as they were. *)
Definition keeps_patterns {A} (m : M A) : Prop :=
  ∀ w, _patterns (snd (m w)) = _patterns w ∧ pickles (snd (m w)) = pickles w.

(** What [choose_answer] does once the tag is known. *)
Definition answer_for (t : string) : M string :=
  p <~ read ;; a <~ lift (_get_answers p t) ;; choice a.

(** Every character of [s] is a word character. *)
Definition all_word_chars (word_char : ascii → bool) (s : string) : Prop :=
  Forall (λ c, word_char c = true) (Strings.String.list_ascii_of_string s).

(** One turn of the inner loop of [_set_stems] when the tag is present. *)
Definition add_word (t x : string) (p : PatternsDict) : PatternsDict :=
  match tags p !! t with
  | None => p
  | Some e =>
      {| tags :=
           if bool_decide (x ∈ stems e) then tags p
           else <[t := {| stems := stems e ++ [x]; answers := answers e |}]> (tags p);
         all_stems :=
           if bool_decide (x ∈ all_stems p) then all_stems p
           else all_stems p ++ [x] |}
  end.

Definition add_words (t : string) (l : list string) (p : PatternsDict)
    : PatternsDict :=
  foldl (λ p x, add_word t x p) p l.

Definition ensure_tag (t : string) (p : PatternsDict) : PatternsDict :=
  if bool_decide (t ∈ _get_all_tags p) then p
  else {| tags := <[t := {| stems := []; answers := [] |}]> (tags p);
          all_stems := all_stems p |}.

Definition add_answers (t : string) (new : list string) (p : PatternsDict)
    : PatternsDict :=
  match tags p !! t with
  | None => p
  | Some e =>
      {| tags := <[t := {| stems := stems e; answers := answers e ++ new |}]> (tags p);
         all_stems := all_stems p |}
  end.

(** The global stems are exactly the stems that some tag holds. *)
Definition covered (p : PatternsDict) : Prop :=
  ∀ x, x ∈ all_stems p ↔ ∃ t e, tags p !! t = Some e ∧ x ∈ stems e.

(** A record that [_set_intent] can read to the end. *)
Definition complete (intent : Intent) : Prop :=
  is_Some (tag intent) ∧ is_Some (responses intent) ∧ is_Some (patterns intent).

(** [x] is a stem of some tag. *)
Definition held (p : PatternsDict) (x : string) : Prop :=
  ∃ t e, tags p !! t = Some e ∧ x ∈ stems e.

(** [_set_intent] on a record read to the end, [stems_of] being
    [_stemming]. *)
Definition ingest (stems_of : string → list string) (t : string)
    (r ps : list string) (p : PatternsDict) : PatternsDict :=
  add_words t (concat (stems_of <$> ps)) (add_answers t r (ensure_tag t p)).

(** The dictionary after [_sort_all_stems]. *)
Definition finalize (p : PatternsDict) : PatternsDict :=
  {| tags := sort_entry <$> tags p; all_stems := sorted_set (all_stems p) |}.

(** The stems of every tag, one list after the other. *)
Definition tag_stems_union (p : PatternsDict) : list string :=
  concat (stems <$> (map_to_list (tags p)).*2).

(** A boolean vector of length [n] whose only true position is [i]. *)
Definition one_hot (n i : nat) (v : list bool) : Prop :=
  length v = n ∧ i < n ∧ ∀ k, v !! k = Some true ↔ k = i.

(** [row] is the example of stem [s] under tag [t]: its feature vector is
    true at the position of [s] in the global stems list only, its label
    vector at the position of [t] in the sorted tag list only. *)
Definition example_of (p : PatternsDict) (t s : string)
    (row : list bool * list bool) : Prop :=
  ∃ i j, all_stems p !! i = Some s
         ∧ _get_all_tags p !! j = Some t
         ∧ one_hot (length (all_stems p)) i row.1
         ∧ one_hot (size (tags p)) j row.2.

(** The sum over all tags of the number of stems of the tag. *)
Definition example_count (p : PatternsDict) : nat :=
  sum_list ((λ e, length (stems e)) <$> (map_to_list (tags p)).*2).

(** An excerpt of the French stop list. *)
Definition stoplist_excerpt : list string := ["le"; "la"; "les"].

(** The intents file of the class docstring. *)
Definition docstring_file : list Intent :=
  [ {| tag := Some "noanswer"; patterns := Some [];
       responses := Some ["Je n'ai pas compris..."]; context := Some [] |};
    {| tag := Some "hello_intent"; patterns := Some ["Hello !"; "hi"];
       responses := Some ["Hey you !"; "Hello."];
       context := Some ["other_intent"] |} ].

(** A file whose only record is ["noanswer"], without patterns. *)
Definition noanswer_only_file : list Intent :=
  [ {| tag := Some "noanswer"; patterns := Some [];
       responses := Some ["Je n'ai pas compris..."]; context := Some [] |} ].

(** A file that never defines ["noanswer"]. *)
Definition hello_only_file : list Intent :=
  [ {| tag := Some "hello_intent"; patterns := Some ["Hello !"; "hi"];
       responses := Some ["Hey you !"; "Hello."]; context := Some [] |} ].

(** The docstring file followed by an empty record. *)
Definition empty_record_file : list Intent :=
  docstring_file
  ++ [ {| tag := None; patterns := None; responses := None; context := None |} ].

(** A file whose second record has no ["responses"]. *)
Definition broken_file : list Intent :=
  [ {| tag := Some "hello_intent"; patterns := Some ["Hello !"; "hi"];
       responses := Some ["Hey you !"; "Hello."]; context := Some [] |};
    {| tag := Some "bye_intent"; patterns := Some ["bye"];
       responses := None; context := None |} ].

(** A file with a tag that has no answer. *)
Definition mute_file : list Intent :=
  [ {| tag := Some "mute"; patterns := Some ["hush"];
       responses := Some []; context := None |} ].

Definition counting : Random := {| draws := λ n, n; consumed := 0 |}.

(** Runs with the ASCII tables, the identity for stemmer and the excerpt
    of the stop list. *)
Definition run_convert (file : list Intent) :=
  convert_intents ascii_word ascii_lower (λ s, s) stoplist_excerpt
    (Some file) (fresh_world counting).

Definition docstring_world : World := snd (run_convert docstring_file).

Definition mute_world : World := snd (run_convert mute_file).

(** The entry of tag [t], an entry without stems and answers when the tag
    is absent. *)
Definition entry_at (p : PatternsDict) (t : string) : Entry :=
  default {| stems := []; answers := [] |} (tags p !! t).

(** What [_set_intent] makes of the dictionary for a record that has its
    three keys; [stems_of] is [_stemming]. *)
Definition ingest_record (stems_of : string → list string) (intent : Intent)
    (p : PatternsDict) : PatternsDict :=
  match tag intent, responses intent, patterns intent with
  | Some t, Some r, Some ps => ingest stems_of t r ps p
  | _, _, _ => p
  end.

(** The loop of [_parse_intents_file] over such records. *)
Definition ingest_file (stems_of : string → list string) (file : list Intent)
    (p : PatternsDict) : PatternsDict :=
  foldl (λ p intent, if truthy intent then ingest_record stems_of intent p else p)
    p file.

(** The responses of the records tagged [t], in the order of the file. *)
Definition responses_of (t : string) (file : list Intent) : list string :=
  concat ((λ intent, if bool_decide (tag intent = Some t)
                     then default [] (responses intent) else []) <$> file).

(** The stems of the patterns of the records tagged [t], in the order of
    the file. *)
Definition pattern_stems_of (stems_of : string → list string) (t : string)
    (file : list Intent) : list string :=
  concat ((λ intent, if bool_decide (tag intent = Some t)
                     then concat (stems_of <$> default [] (patterns intent))
                     else []) <$> file).

(** The first key that [_set_intent] fails to find in a record. *)
Definition missing_key (intent : Intent) : option string :=
  match tag intent, responses intent, patterns intent with
  | None, _, _ => Some "tag"
  | Some _, None, _ => Some "responses"
  | Some _, Some _, None => Some "patterns"
  | Some _, Some _, Some _ => None
  end.

(** No stem is stored twice, neither in the global list nor under a tag. *)
Definition stems_distinct (p : PatternsDict) : Prop :=
  NoDup (all_stems p) ∧ ∀ t e, tags p !! t = Some e → NoDup (stems e).

(** [q] holds all that [p] holds, in the same order, with new items after
    the old ones only. *)
Definition extends (p q : PatternsDict) : Prop :=
  all_stems p `prefix_of` all_stems q
  ∧ ∀ t e, tags p !! t = Some e →
      ∃ e', tags q !! t = Some e'
            ∧ stems e `prefix_of` stems e'
            ∧ answers e `prefix_of` answers e'.

(** What [html.escape] makes of one code point. *)
Definition escape_char (c : N) : list N :=
  if decide (c = 38%N) then codes "&amp;"
  else if decide (c = 60%N) then codes "&lt;"
  else if decide (c = 62%N) then codes "&gt;"
  else if decide (c = 34%N) then codes "&quot;"
  else if decide (c = 39%N) then codes "&#x27;"
  else [c].

(** The code points that [sanitize] rewrites or removes: [&], [<], [>],
    the two quotes and the backslash. *)
Definition special (c : N) : Prop := c ∈ [38; 60; 62; 34; 39; 92]%N.

(** The characters of a string. *)
Definition chars (s : string) : list ascii :=
  Strings.String.list_ascii_of_string s.

(** A file that splits the tag ["hello_intent"] over two records. *)
Definition split_file : list Intent :=
  [ {| tag := Some "noanswer"; patterns := Some [];
       responses := Some ["Je n'ai pas compris..."]; context := Some [] |};
    {| tag := Some "hello_intent"; patterns := Some ["Hello !"];
       responses := Some ["Hey you !"]; context := Some [] |};
    {| tag := Some "hello_intent"; patterns := Some ["hi"; "hello hi"];
       responses := Some ["Hello."]; context := None |} ].

Definition hello_only_world : World := snd (run_convert hello_only_file).

(** A directory that holds a model and a pickle. *)
Definition two_files (f : string) : bool :=
  bool_decide (f ∈ ["mymodel.h5"; "myintents.pkl"]).

(** Its loaders: the pickle holds the vocabulary of the docstring, a model
    is named by its file, and each loader fails on the other file. *)
Definition two_files_pickle (f : string) : exn + PatternsDict :=
  if decide (f = "myintents.pkl") then inr (_patterns docstring_world)
  else inl (OtherException "UnpicklingError").

Definition two_files_model (f : string) : exn + string :=
  if decide (f = "mymodel.h5") then inr f else inl (OtherException "OSError").

(** * Properties *)

(** ** Computations that only read the dictionary *)

Lemma keeps_ret {A} (a : A) : keeps_patterns (ret a).
Proof. by intros w. Qed.

Lemma keeps_raise {A} (e : exn) : keeps_patterns (@raise A e).
Proof. by intros w. Qed.

Lemma keeps_lift {A} (r : exn + A) : keeps_patterns (lift r).
Proof. destruct r; [apply keeps_raise | apply keeps_ret]. Qed.

Lemma keeps_read : keeps_patterns read.
Proof. by intros w. Qed.

Lemma keeps_randbelow n : keeps_patterns (randbelow n).
Proof. by intros w. Qed.

Lemma keeps_bind {A B} (m : M A) (k : A → M B) :
  keeps_patterns m → (∀ a, keeps_patterns (k a)) → keeps_patterns (bind m k).
Proof.
  intros Hm Hk w. unfold bind. destruct (Hm w) as [Hp Hd].
  destruct (m w) as [[e|a] w']; simpl in *; [done|].
  destruct (Hk a w') as [-> ->]. done.
Qed.

Lemma keeps_choice {A} (seq : list A) : keeps_patterns (choice seq).
Proof.
  destruct seq as [|a seq]; [apply keeps_raise|].
  apply keeps_bind; [apply keeps_randbelow | intros i; apply keeps_lift].
Qed.

Create HintDb frame discriminated.
#[global] Hint Resolve keeps_ret keeps_raise keeps_lift keeps_read
  keeps_randbelow keeps_choice : frame.

Ltac frame :=
  repeat first
    [ apply keeps_bind; [|intros ?]
    | progress eauto with frame
    | match goal with
      | |- keeps_patterns (if ?b then _ else _) => destruct b
      | |- keeps_patterns (match ?o with Some _ => _ | None => _ end) => destruct o
      end ].

Lemma keeps_get_tag_by_index index : keeps_patterns (_get_tag_by_index index).
Proof. unfold _get_tag_by_index. frame. Qed.

Lemma keeps_choose_answer index : keeps_patterns (choose_answer index).
Proof. unfold choose_answer. frame. Qed.

Section Frame.
Context (word_char : ascii → bool) (lower_char : ascii → ascii).
Context (stem : string → string) (_stoplist : list string).
Context (predict : list bool → list Q).

Lemma keeps_convert_sentence sentence :
  keeps_patterns (convert_sentence word_char lower_char stem _stoplist sentence).
Proof. unfold convert_sentence. frame. Qed.

Lemma keeps_predict pattern : keeps_patterns (_predict predict pattern).
Proof. unfold _predict. frame. Qed.

Lemma keeps_which_intent sentence :
  keeps_patterns
    (_which_intent word_char lower_char stem _stoplist predict sentence).
Proof.
  unfold _which_intent.
  apply keeps_bind; [apply keeps_convert_sentence | intros; apply keeps_predict].
Qed.

Lemma keeps_answer sentence :
  keeps_patterns (answer word_char lower_char stem _stoplist predict sentence).
Proof.
  unfold answer.
  apply keeps_bind; [apply keeps_which_intent | intros; apply keeps_choose_answer].
Qed.

(** C9: none of the inference operations ([answer], [convert_sentence],
    [_predict], [_get_tag_by_index], [choose_answer]) changes the
    vocabulary: whatever the call returns or raises, and whatever it
    draws from the random source, the tags mapping and the global stems
    list of [self._patterns] are afterwards what they were before. *)
Theorem inference_leaves_vocabulary_unchanged
    (w : World) (sentence : string) (pattern : list bool) (index : Z) :
  let unchanged (w' : World) :=
    tags (_patterns w') = tags (_patterns w)
    ∧ all_stems (_patterns w') = all_stems (_patterns w) in
  unchanged (snd (answer word_char lower_char stem _stoplist predict sentence w))
  ∧ unchanged (snd (convert_sentence word_char lower_char stem _stoplist sentence w))
  ∧ unchanged (snd (_predict predict pattern w))
  ∧ unchanged (snd (_get_tag_by_index index w))
  ∧ unchanged (snd (choose_answer index w)).
Proof.
  intros unchanged; subst unchanged; cbv beta.
  destruct (keeps_answer sentence w) as [-> _].
  destruct (keeps_convert_sentence sentence w) as [-> _].
  destruct (keeps_predict pattern w) as [-> _].
  destruct (keeps_get_tag_by_index index w) as [-> _].
  by destruct (keeps_choose_answer index w) as [-> _].
Qed.
End Frame.

(** ** Sorting and the tag list *)

Lemma sorted_Permutation l : sorted l ≡ₚ l.
Proof. apply merge_sort_Permutation. Qed.

Lemma Sorted_sorted l : Sorted String.le (sorted l).
Proof. apply (Sorted_merge_sort _). Qed.

Lemma elem_of_sorted l x : x ∈ sorted l ↔ x ∈ l.
Proof. by rewrite sorted_Permutation. Qed.

Lemma length_sorted l : length (sorted l) = length l.
Proof. by rewrite sorted_Permutation. Qed.

Lemma NoDup_sorted l : NoDup (sorted l) ↔ NoDup l.
Proof. by rewrite sorted_Permutation. Qed.

Lemma elem_of_sorted_set l x : x ∈ sorted_set l ↔ x ∈ l.
Proof. unfold sorted_set. by rewrite elem_of_sorted, elem_of_remove_dups. Qed.

Lemma NoDup_sorted_set l : NoDup (sorted_set l).
Proof. apply NoDup_sorted, NoDup_remove_dups. Qed.

Lemma Sorted_sorted_set l : Sorted String.le (sorted_set l).
Proof. apply Sorted_sorted. Qed.

(** A sorted list without duplicates is determined by its elements. *)
Lemma sorted_NoDup_unique (l k : list string) :
  Sorted String.le l → Sorted String.le k → NoDup l → NoDup k →
  (∀ x, x ∈ l ↔ x ∈ k) → l = k.
Proof.
  intros Hl Hk Nl Nk Hlk.
  apply (Sorted_unique String.le); [done..|].
  by apply NoDup_Permutation.
Qed.

Lemma sorted_set_ext (l k : list string) :
  (∀ x, x ∈ l ↔ x ∈ k) → sorted_set l = sorted_set k.
Proof.
  intros Hlk. apply sorted_NoDup_unique;
    auto using Sorted_sorted_set, NoDup_sorted_set.
  intros x. by rewrite !elem_of_sorted_set.
Qed.

Lemma sorted_set_idemp l : sorted_set (sorted_set l) = sorted_set l.
Proof. apply sorted_set_ext, elem_of_sorted_set. Qed.

Lemma elem_of_get_all_tags p t : t ∈ _get_all_tags p ↔ is_Some (tags p !! t).
Proof.
  unfold _get_all_tags. rewrite elem_of_sorted, list_elem_of_fmap. split.
  - intros [[t' e] [-> He]]. apply elem_of_map_to_list in He. by exists e.
  - intros [e He]. exists (t, e). split; [done|]. by apply elem_of_map_to_list.
Qed.

Lemma length_get_all_tags p : length (_get_all_tags p) = size (tags p).
Proof.
  unfold _get_all_tags. by rewrite length_sorted, length_fmap, length_map_to_list.
Qed.

Lemma NoDup_get_all_tags p : NoDup (_get_all_tags p).
Proof. apply NoDup_sorted, NoDup_fst_map_to_list. Qed.

(** ** Resolving an index *)

(** C4: whatever the vocabulary holds, the unresolved sentinel [-1] is
    resolved by [_get_tag_by_index] to the tag ["noanswer"], and the call
    changes nothing. *)
Theorem unresolved_is_noanswer (w : World) :
  _get_tag_by_index (-1) w = (inr "noanswer", w).
Proof. reflexivity. Qed.

Lemma get_tag_by_index_negative (w : World) (index : Z) :
  (index < 0)%Z → _get_tag_by_index index w = (inr "noanswer", w).
Proof.
  intros Hneg. unfold _get_tag_by_index, bind, read.
  destruct (decide (0 ≤ index)%Z); [lia | done].
Qed.

Lemma get_tag_by_index_in_range (w : World) (index : Z) (t : string) :
  (0 ≤ index)%Z → _get_all_tags (_patterns w) !! Z.to_nat index = Some t →
  _get_tag_by_index index w = (inr t, w).
Proof.
  intros Hpos Ht. unfold _get_tag_by_index, bind, read.
  destruct (decide (0 ≤ index)%Z); [|lia]. by rewrite Ht.
Qed.

Lemma get_tag_by_index_out_of_range (w : World) (index : Z) :
  (Z.of_nat (size (tags (_patterns w))) ≤ index)%Z →
  _get_tag_by_index index w = (inl IndexError, w).
Proof.
  intros Hge. unfold _get_tag_by_index, bind, read.
  destruct (decide (0 ≤ index)%Z); [|lia].
  rewrite (lookup_ge_None_2 (_get_all_tags _)); [done|].
  rewrite length_get_all_tags. lia.
Qed.

Lemma get_tag_by_index_world (w : World) (index : Z) :
  snd (_get_tag_by_index index w) = w.
Proof.
  unfold _get_tag_by_index, bind, read.
  destruct (decide (0 ≤ index)%Z); [|done].
  by destruct (_get_all_tags (_patterns w) !! Z.to_nat index).
Qed.

Lemma choose_answer_unfold (w : World) (index : Z) (t : string) :
  _get_tag_by_index index w = (inr t, w) →
  choose_answer index w = answer_for t w.
Proof. intros Ht. unfold choose_answer, bind at 1. by rewrite Ht. Qed.

(** C10: every strictly negative index, not only [-1], is resolved to
    ["noanswer"] by [_get_tag_by_index], and [choose_answer] then answers
    from the entry of ["noanswer"]; an index that is at least the number
    of tags is an out-of-range access: both raise [IndexError] and nothing
    falls back to ["noanswer"]. *)
Theorem index_outside_tag_list (w : World) (index : Z) :
  ((index < 0)%Z →
     _get_tag_by_index index w = (inr "noanswer", w)
     ∧ choose_answer index w = answer_for "noanswer" w)
  ∧ ((Z.of_nat (size (tags (_patterns w))) ≤ index)%Z →
     _get_tag_by_index index w = (inl IndexError, w)
     ∧ choose_answer index w = (inl IndexError, w)).
Proof.
  split.
  - intros Hneg. pose proof (get_tag_by_index_negative w index Hneg) as Ht.
    split; [done|]. by apply choose_answer_unfold.
  - intros Hge. pose proof (get_tag_by_index_out_of_range w index Hge) as Ht.
    split; [done|]. unfold choose_answer, bind at 1. by rewrite Ht.
Qed.

(** ** Choosing an answer *)

Lemma choice_nonempty {A} (seq : list A) (w : World) :
  seq ≠ [] → ∃ a, fst (choice seq w) = inr a ∧ a ∈ seq.
Proof.
  intros Hne. destruct seq as [|a0 seq]; [done|].
  unfold choice, bind, randbelow. cbn [fst snd].
  set (i := draws (random w) (consumed (random w)) `mod` length (a0 :: seq)).
  assert (i < length (a0 :: seq)) as Hi.
  { apply Nat.mod_upper_bound. simpl. lia. }
  destruct (lookup_lt_is_Some_2 _ _ Hi) as [a Ha]. rewrite Ha.
  exists a. split; [done|]. by eapply list_elem_of_lookup_2.
Qed.

(** C8: when [index] resolves to a tag of the vocabulary whose answer list
    is not empty, [choose_answer] returns one of the strings of that list;
    when the list is empty it raises (the [IndexError] of [random.choice]
    on an empty sequence). *)
Theorem choose_answer_member (w : World) (index : Z) (t : string) (e : Entry) :
  fst (_get_tag_by_index index w) = inr t →
  tags (_patterns w) !! t = Some e →
  (answers e ≠ [] → ∃ a, fst (choose_answer index w) = inr a ∧ a ∈ answers e)
  ∧ (answers e = [] → fst (choose_answer index w) = inl IndexError).
Proof.
  intros Ht He.
  assert (_get_tag_by_index index w = (inr t, w)) as Ht'.
  { rewrite (surjective_pairing (_get_tag_by_index index w)).
    by rewrite Ht, get_tag_by_index_world. }
  rewrite (choose_answer_unfold _ _ _ Ht').
  cbv [answer_for bind read _get_answers]. rewrite He. cbn [lift ret]. split.
  - intros Hne. by apply choice_nonempty.
  - intros Hnil. by rewrite Hnil.
Qed.

(** ** Encoding a sentence *)

Section Encoding.
Context (word_char : ascii → bool) (lower_char : ascii → ascii).
Context (stem : string → string) (_stoplist : list string).

Local Abbreviation stems_of := (_stemming word_char lower_char stem _stoplist).
Local Abbreviation encode :=
  (convert_sentence word_char lower_char stem _stoplist).

(** C7: [convert_sentence] returns a vector as long as the global stems
    list; position [i] is true exactly when the [i]-th global stem occurs
    among the stems of the sentence; and the stems of the sentence that
    the vocabulary does not know play no part: the vector is the one
    obtained from the known stems alone.  The vocabulary is untouched. *)
Theorem convert_sentence_spec (w : World) (sentence : string) :
  let known := all_stems (_patterns w) in
  let found := stems_of sentence in
  ∃ v : list bool,
    encode sentence w = (inr v, w)
    ∧ length v = length known
    ∧ (∀ i, v !! i = Some true ↔ ∃ s, known !! i = Some s ∧ s ∈ found)
    ∧ v = (λ s, bool_decide (s ∈ filter (λ x, x ∈ known) found)) <$> known.
Proof.
  intros known found. eexists. split; [reflexivity|].
  fold found. unfold _get_all_stems. fold known. split; [|split].
  - by rewrite length_fmap.
  - intros i. rewrite list_lookup_fmap. split.
    + destruct (known !! i) as [s|]; [|done]. simpl. intros [= Hs].
      exists s. split; [done|]. by apply bool_decide_eq_true in Hs.
    + intros (s & -> & Hs). simpl. by rewrite bool_decide_eq_true_2.
  - apply list_fmap_ext. intros i s Hs. apply bool_decide_ext.
    rewrite list_elem_of_filter. split; [|tauto].
    intros Hin. split; [|done]. by eapply list_elem_of_lookup_2.
Qed.
End Encoding.

(** ** The prediction threshold *)

Lemma Qgtb_true (x y : Q) : Qgtb x y = true ↔ (y < x)%Q.
Proof.
  unfold Qgtb. rewrite negb_true_iff, <- not_true_iff_false, Qle_bool_iff.
  split; [apply Qnot_le_lt | apply Qlt_not_le].
Qed.

Lemma Qgtb_false (x y : Q) : Qgtb x y = false ↔ (x <= y)%Q.
Proof. unfold Qgtb. by rewrite negb_false_iff, Qle_bool_iff. Qed.

Lemma max_from_spec (l : list Q) (m0 : Q) :
  (max_from m0 l = m0 ∨ max_from m0 l ∈ l)
  ∧ (m0 <= max_from m0 l)%Q
  ∧ ∀ x, x ∈ l → (x <= max_from m0 l)%Q.
Proof.
  revert m0. induction l as [|item l IH]; intros m0; simpl.
  - split; [by left|]. split; [apply Qle_refl|]. intros x Hx. by inversion Hx.
  - destruct (Qgtb item m0) eqn:E.
    + apply Qgtb_true in E.
      destruct (IH item) as (Hin & Hle & Hall). split; [|split].
      * right. destruct Hin as [->|Hin]; [left | by right].
      * eapply Qle_trans; [apply Qlt_le_weak, E | apply Hle].
      * intros x [->|Hx]%elem_of_cons; auto.
    + apply Qgtb_false in E.
      destruct (IH m0) as (Hin & Hle & Hall). split; [|split].
      * destruct Hin as [->|Hin]; [by left | right; by right].
      * done.
      * intros x [->|Hx]%elem_of_cons; [|auto]. by eapply Qle_trans.
Qed.

Section Classify.
Variable predict : list bool → list Q.

(** C3: let [m] be the greatest probability the classifier returns and
    [i] the first position that holds it.  [_predict] returns the
    sentinel [-1] when [m] is at most [0.9] and returns [i] when [m] is
    strictly above [0.9]; positions after [i] that also hold [m] are
    never chosen.  [0.9] is the float of the source, [float_0_9]: a
    greatest probability equal to that float is not above it. *)
Theorem predict_threshold_argmax
    (w : World) (pattern : list bool) (i : nat) (m : Q) :
  predict pattern !! i = Some m →
  (∀ j x, predict pattern !! j = Some x → (x <= m)%Q) →
  (∀ j x, j < i → predict pattern !! j = Some x → (x < m)%Q) →
  ((m <= float_0_9)%Q → _predict predict pattern w = (inr (-1)%Z, w))
  ∧ ((float_0_9 < m)%Q → _predict predict pattern w = (inr (Z.of_nat i), w)).
Proof.
  intros Hi Hmax Hfirst. unfold _predict.
  destruct (predict pattern) as [|item l] eqn:Hres; [done|].
  cbv [bind max lift ret].
  set (r := max_from item l).
  assert (r == m)%Q as Hrm.
  { destruct (max_from_spec l item) as (Hin & Hle & Hall). fold r in Hin, Hle, Hall.
    apply Qle_antisym.
    - assert (r ∈ item :: l) as [k Hk]%list_elem_of_lookup_1; [|by eapply Hmax].
      destruct Hin as [->|Hin]; [left | by right].
    - pose proof (list_elem_of_lookup_2 _ _ _ Hi) as [->|Hm]%elem_of_cons; auto. }
  assert (list_find (λ y, y == r)%Q (item :: l) = Some (i, m)) as Hfind.
  { apply list_find_Some. split; [done|]. split; [done|].
    intros j y Hy Hj Hyr. apply (Qlt_irrefl m).
    rewrite <- Hrm at 1. rewrite <- Hyr. by eapply Hfirst. }
  unfold index. rewrite Hfind. cbn [raise ret]. rewrite Hi. split.
  - intros Hle. by rewrite (proj2 (Qgtb_false _ _) Hle).
  - intros Hgt. by rewrite (proj2 (Qgtb_true _ _) Hgt).
Qed.
End Classify.

(** ** Stemming *)

Section Stemming.
Context (word_char : ascii → bool) (lower_char : ascii → ascii).
Context (stem : string → string) (_stoplist : list string).

Local Abbreviation lower_ := (lower lower_char).
Local Abbreviation findall := (findall_from word_char).
Local Abbreviation tokens_of := (tokenize word_char).
Local Abbreviation stems_of := (_stemming word_char lower_char stem _stoplist).
Local Abbreviation word_chars := (all_word_chars word_char).

Lemma word_chars_snoc (s : string) (c : ascii) :
  word_chars s → word_char c = true → word_chars (s +:+ String c "").
Proof.
  unfold all_word_chars. intros Hs Hc. induction s as [|a s IH]; simpl in *.
  - by repeat constructor.
  - inversion_clear Hs. constructor; auto.
Qed.

Lemma snoc_nonempty (s : string) (c : ascii) : s +:+ String c "" ≠ "".
Proof. by destruct s. Qed.

(** Every token is a non-empty run of word characters. *)
Lemma findall_from_tokens (text cur token : string) :
  word_chars cur → token ∈ findall cur text →
  token ≠ "" ∧ word_chars token.
Proof.
  revert cur. induction text as [|c rest IH]; intros cur Hcur; simpl.
  - destruct (decide (cur = "")); [by intros ?%elem_of_nil|].
    by intros ->%list_elem_of_singleton.
  - destruct (word_char c) eqn:Hc.
    + apply IH. by apply word_chars_snoc.
    + intros [Hin|Hin]%elem_of_app.
      * destruct (decide (cur = "")); [by apply elem_of_nil in Hin|].
        by apply list_elem_of_singleton in Hin as ->.
      * apply (IH ""); [constructor | done].
Qed.

Lemma tokenize_tokens (text token : string) :
  token ∈ tokens_of text → token ≠ "" ∧ word_chars token.
Proof. apply findall_from_tokens. constructor. Qed.

(** No word character of the text is lost, none is added: the tokens
    joined are the word characters of the text, in order. *)
Lemma findall_from_chars (text cur : string) :
  concat (Strings.String.list_ascii_of_string <$> findall cur text)
  = Strings.String.list_ascii_of_string cur
    ++ List.filter word_char (Strings.String.list_ascii_of_string text).
Proof.
  revert cur. induction text as [|c rest IH]; intros cur; simpl.
  - destruct (decide (cur = "")) as [->|]; simpl; by rewrite ?app_nil_r.
  - destruct (word_char c) eqn:Hc.
    + rewrite IH. clear. induction cur as [|a cur IHc]; simpl; [done|].
      by rewrite IHc.
    + rewrite fmap_app, concat_app, IH. simpl.
      destruct (decide (cur = "")) as [->|]; simpl; by rewrite ?app_nil_r.
Qed.

(** What [_stemming] returns: the stem of the lower-cased form of every
    token that, as written in the text, is not in the stop list. *)
Lemma elem_of_stemming (text x : string) :
  x ∈ stems_of text ↔
  (∃ word, word ∈ tokens_of text ∧ (word ∉ _stoplist) ∧ x = stem (lower_ word)).
Proof.
  unfold _stemming. rewrite list_elem_of_fmap. split.
  - intros (word & -> & [Hstop Hin]%list_elem_of_filter). by exists word.
  - intros (word & Hin & Hstop & ->). exists word. split; [done|].
    by apply list_elem_of_filter.
Qed.

(** A text whose only token is a stop word as written yields nothing. *)
Lemma stemming_stop_word (text word : string) :
  tokens_of text = [word] → word ∈ _stoplist → stems_of text = [].
Proof.
  intros Htok Hstop. unfold _stemming. rewrite Htok.
  rewrite filter_cons, decide_False; [done|]. by intros Hn.
Qed.

End Stemming.

(** C6: the test against the stop list is made on the token as written,
    before it is lower-cased.  With the stop list ["le"; "la"; "les"], the
    text ["Le chat"] has the tokens ["Le"] and ["chat"]; the lower-cased
    form of ["Le"] is the stop word ["le"], yet the token is kept and its
    stem is returned, while the same word written ["le"] is discarded. *)
Theorem stemming_keeps_capitalised_stop_word (stem : string → string) :
  let _stoplist := ["le"; "la"; "les"] in
  tokenize ascii_word "Le chat" = ["Le"; "chat"]
  ∧ lower ascii_lower "Le" ∈ _stoplist
  ∧ _stemming ascii_word ascii_lower stem _stoplist "Le chat"
    = [stem "le"; stem "chat"]
  ∧ _stemming ascii_word ascii_lower stem _stoplist "le chat" = [stem "chat"].
Proof.
  simpl. split; [by vm_compute|]. split; [|split].
  - vm_compute. left.
  - by vm_compute.
  - by vm_compute.
Qed.

(** ** Ingestion as a function on the dictionary *)

Lemma with_patterns_id (w : World) : with_patterns (_patterns w) w = w.
Proof. by destruct w. Qed.

Lemma with_patterns_twice (p q : PatternsDict) (w : World) :
  with_patterns p (with_patterns q w) = with_patterns p w.
Proof. done. Qed.

Lemma patterns_eta (p : PatternsDict) :
  {| tags := tags p; all_stems := all_stems p |} = p.
Proof. by destruct p. Qed.

Lemma set_stems_word_eq (w : World) (t x : string) :
  is_Some (tags (_patterns w) !! t) →
  _set_stems_word t x w = (inr tt, with_patterns (add_word t x (_patterns w)) w).
Proof.
  intros [e He]. destruct w as [[tg al] r k].
  cbv [_set_stems_word bind read lift _get_stems ret raise _patterns add_word
       append_tag_stem append_stem write with_patterns _get_all_stems random
       pickles tags all_stems] in *.
  rewrite He.
  destruct (bool_decide (x ∈ stems e)); rewrite ?He; cbn;
    by destruct (bool_decide (x ∈ al)).
Qed.

Lemma add_word_has_tag (t x t' : string) (p : PatternsDict) :
  is_Some (tags (add_word t x p) !! t') ↔ is_Some (tags p !! t').
Proof.
  unfold add_word. destruct (tags p !! t) as [e|] eqn:He; [|reflexivity]. simpl.
  destruct (bool_decide (x ∈ stems e)); [reflexivity|].
  rewrite lookup_insert_is_Some'. split; [|by right].
  intros [<-|?]; [by rewrite He | done].
Qed.

Lemma add_words_has_tag (t t' : string) (l : list string) (p : PatternsDict) :
  is_Some (tags (add_words t l p) !! t') ↔ is_Some (tags p !! t').
Proof.
  revert p. induction l as [|x l IH]; intros p; simpl; [reflexivity|].
  unfold add_words in *. simpl. by rewrite IH, add_word_has_tag.
Qed.

Lemma add_words_app (t : string) (l k : list string) (p : PatternsDict) :
  add_words t (l ++ k) p = add_words t k (add_words t l p).
Proof. apply foldl_app. Qed.

Lemma for_words_eq (w : World) (t : string) (l : list string) :
  is_Some (tags (_patterns w) !! t) →
  for_ l (_set_stems_word t) w
  = (inr tt, with_patterns (add_words t l (_patterns w)) w).
Proof.
  revert w. induction l as [|x l IH]; intros w Ht; simpl.
  - by rewrite with_patterns_id.
  - unfold bind. rewrite set_stems_word_eq by done.
    rewrite IH; [done|]. simpl. by apply add_word_has_tag.
Qed.

Lemma set_stems_eq (w : World) (t : string) (ss : list (list string)) :
  is_Some (tags (_patterns w) !! t) →
  _set_stems t ss w
  = (inr tt, with_patterns (add_words t (concat ss) (_patterns w)) w).
Proof.
  intros Ht. unfold _set_stems.
  cbv [bind read lift _get_stems]. destruct Ht as [e He]. rewrite He.
  cbv [ret]. assert (is_Some (tags (_patterns w) !! t)) as Ht by eauto.
  clear e He. revert w Ht. induction ss as [|l ss IH]; intros w Ht; simpl.
  - by rewrite with_patterns_id.
  - unfold bind. rewrite for_words_eq by done.
    rewrite IH by (by apply add_words_has_tag).
    simpl. by rewrite add_words_app.
Qed.

Lemma set_answers_eq (w : World) (t : string) (new : list string) :
  is_Some (tags (_patterns w) !! t) →
  _set_answers t new w = (inr tt, with_patterns (add_answers t new (_patterns w)) w).
Proof.
  intros [e He]. cbv [_set_answers bind read add_answers]. by rewrite He.
Qed.

Lemma ensure_tag_has_tag (t : string) (p : PatternsDict) :
  is_Some (tags (ensure_tag t p) !! t).
Proof.
  unfold ensure_tag. case_bool_decide as Ht.
  - by apply elem_of_get_all_tags.
  - simpl. rewrite lookup_insert_eq. eauto.
Qed.

Lemma add_answers_has_tag (t t' : string) (new : list string) (p : PatternsDict) :
  is_Some (tags (add_answers t new p) !! t') ↔ is_Some (tags p !! t').
Proof.
  unfold add_answers. destruct (tags p !! t) as [e|] eqn:He; [|reflexivity]. simpl.
  rewrite lookup_insert_is_Some'. split; [|by right].
  intros [<-|?]; [by rewrite He | done].
Qed.

Lemma covered_empty : covered empty_patterns.
Proof.
  intros x. split.
  - by intros ?%elem_of_nil.
  - by intros (t & e & He & _).
Qed.

Lemma held_same_stems (p q : PatternsDict) (x : string) :
  (∀ t, stems <$> tags q !! t = stems <$> tags p !! t) → held q x → held p x.
Proof.
  intros Hpq (t & e & He & Hx). specialize (Hpq t). rewrite He in Hpq.
  destruct (tags p !! t) as [e'|] eqn:He'; simplify_eq/=.
  exists t, e'. by rewrite Hpq in Hx.
Qed.

Lemma covered_same_stems (p q : PatternsDict) :
  all_stems q = all_stems p →
  (∀ t, stems <$> tags q !! t = stems <$> tags p !! t ∨
        tags p !! t = None ∧ stems <$> tags q !! t = Some []) →
  covered p → covered q.
Proof.
  intros Hall Htags Hp x. rewrite Hall, (Hp x). split.
  - intros (t & e & He & Hx). exists t.
    destruct (Htags t) as [Ht|[Ht _]]; [|congruence].
    rewrite He in Ht. destruct (tags q !! t) as [e'|]; simplify_eq/=.
    exists e'. split; [done|]. by rewrite Ht.
  - intros (t & e & He & Hx). exists t.
    destruct (Htags t) as [Ht|[_ Ht]]; rewrite He in Ht; simpl in Ht.
    + destruct (tags p !! t) as [e'|]; simplify_eq/=.
      exists e'. split; [done|]. by rewrite <- Ht.
    + simplify_eq/=. rewrite Ht in Hx. by apply elem_of_nil in Hx.
Qed.

Lemma covered_ensure_tag (t : string) (p : PatternsDict) :
  covered p → covered (ensure_tag t p).
Proof.
  unfold ensure_tag. case_bool_decide as Ht; [done|].
  apply covered_same_stems; [done|]. intros t'. simpl.
  destruct (decide (t = t')) as [<-|Hne].
  - right. rewrite lookup_insert_eq. split; [|done].
    apply eq_None_not_Some. by rewrite <- elem_of_get_all_tags.
  - left. by rewrite lookup_insert_ne.
Qed.

Lemma covered_add_answers (t : string) (new : list string) (p : PatternsDict) :
  covered p → covered (add_answers t new p).
Proof.
  unfold add_answers. destruct (tags p !! t) as [e|] eqn:He; [|done].
  apply covered_same_stems; [done|]. intros t'. left. simpl.
  destruct (decide (t = t')) as [<-|Hne].
  - by rewrite lookup_insert_eq, He.
  - by rewrite lookup_insert_ne.
Qed.

Lemma all_stems_add_word (t x y : string) (p : PatternsDict) :
  is_Some (tags p !! t) →
  y ∈ all_stems (add_word t x p) ↔ y ∈ all_stems p ∨ y = x.
Proof.
  intros [e He]. unfold add_word. rewrite He. simpl.
  case_bool_decide as Hx.
  - split; [by left|]. by intros [?| ->].
  - rewrite elem_of_app, list_elem_of_singleton. tauto.
Qed.

Lemma held_add_word (t x y : string) (p : PatternsDict) :
  is_Some (tags p !! t) →
  held (add_word t x p) y ↔ held p y ∨ y = x.
Proof.
  intros [e He]. unfold add_word, held. rewrite He. simpl.
  case_bool_decide as Hx.
  - split; [by left|]. intros [?| ->]; [done|]. by exists t, e.
  - split.
    + intros (t' & e' & He' & Hy). destruct (decide (t = t')) as [<-|Hne].
      * rewrite lookup_insert_eq in He'. simplify_eq/=.
        apply elem_of_app in Hy as [Hy|Hy%list_elem_of_singleton]; [|by right].
        left. by exists t, e.
      * rewrite lookup_insert_ne in He' by done. left. by exists t', e'.
    + intros [(t' & e' & He' & Hy)| ->].
      * destruct (decide (t = t')) as [<-|Hne].
        -- eexists t, _. rewrite lookup_insert_eq. split; [done|]. simpl.
           simplify_eq. apply elem_of_app. by left.
        -- exists t', e'. by rewrite lookup_insert_ne.
      * eexists t, _. rewrite lookup_insert_eq. split; [done|]. simpl.
        apply elem_of_app. right. by apply list_elem_of_singleton.
Qed.

Lemma covered_add_word (t x : string) (p : PatternsDict) :
  covered p → covered (add_word t x p).
Proof.
  intros Hp. destruct (tags p !! t) as [e|] eqn:He.
  - intros y. fold (held (add_word t x p) y).
    rewrite all_stems_add_word, held_add_word by eauto.
    by rewrite (Hp y).
  - unfold add_word. by rewrite He.
Qed.

Lemma covered_add_words (t : string) (l : list string) (p : PatternsDict) :
  covered p → covered (add_words t l p).
Proof.
  revert p. induction l as [|x l IH]; intros p Hp; [done|].
  apply IH. by apply covered_add_word.
Qed.

Lemma bind_inr {A B} (m : M A) (k : A → M B) (w w' : World) (a : A) :
  m w = (inr a, w') → bind m k w = k a w'.
Proof. intros Hm. unfold bind. by rewrite Hm. Qed.

Lemma bind_inl {A B} (m : M A) (k : A → M B) (w w' : World) (e : exn) :
  m w = (inl e, w') → bind m k w = (inl e, w').
Proof. intros Hm. unfold bind. by rewrite Hm. Qed.

Section Ingestion.
Context (word_char : ascii → bool) (lower_char : ascii → ascii).
Context (stem : string → string) (_stoplist : list string).

Local Abbreviation stems_of := (_stemming word_char lower_char stem _stoplist).
Local Abbreviation set_intent :=
  (_set_intent word_char lower_char stem _stoplist).
Local Abbreviation parse :=
  (_parse_intents_file word_char lower_char stem _stoplist).

Lemma set_intent_unfold (intent : Intent) (w : World) :
  set_intent intent w =
  match tag intent with
  | None => (inl (KeyError "tag"), w)
  | Some t =>
      let w1 := with_patterns (ensure_tag t (_patterns w)) w in
      match responses intent with
      | None => (inl (KeyError "responses"), w1)
      | Some r =>
          match _set_answers t r w1 with
          | (inl e, w2) => (inl e, w2)
          | (inr _, w2) =>
              match patterns intent with
              | None => (inl (KeyError "patterns"), w2)
              | Some ps => _set_stems t (stems_of <$> ps) w2
              end
          end
      end
  end.
Proof.
  destruct intent as [[t|] [ps|] [r|] c];
    cbv [_set_intent bind read ret lift getitem raise write ensure_tag
         tag responses patterns]; try done;
    case_bool_decide; cbn; by rewrite ?with_patterns_id.
Qed.

Lemma set_intent_spec (intent : Intent) (w : World) :
  ∃ res p',
    set_intent intent w = (res, with_patterns p' w)
    ∧ (covered (_patterns w) → covered p')
    ∧ (complete intent → res = inr tt)
    ∧ (¬ complete intent → ∃ k, res = inl (KeyError k)).
Proof.
  rewrite set_intent_unfold. unfold complete.
  destruct intent as [[t|] ps r c]; simpl.
  2:{ exists (inl (KeyError "tag")), (_patterns w).
      rewrite with_patterns_id. split; [done|]. split; [done|].
      split; [by intros [[? [=]] _] | eauto]. }
  set (p1 := ensure_tag t (_patterns w)).
  assert (covered (_patterns w) → covered p1) as Hc1 by apply covered_ensure_tag.
  destruct r as [r|].
  2:{ exists (inl (KeyError "responses")), p1. split; [done|]. split; [done|].
      split; [by intros (_ & [? [=]] & _) | eauto]. }
  rewrite set_answers_eq by apply ensure_tag_has_tag.
  cbn [_patterns with_patterns]. fold p1.
  set (p2 := add_answers t r p1).
  assert (covered (_patterns w) → covered p2) as Hc2.
  { intros ?. by apply covered_add_answers, Hc1. }
  destruct ps as [ps|].
  2:{ exists (inl (KeyError "patterns")), p2. split; [done|]. split; [done|].
      split; [by intros (_ & _ & [? [=]]) | eauto]. }
  rewrite set_stems_eq by (by apply add_answers_has_tag, ensure_tag_has_tag).
  cbn [_patterns with_patterns].
  exists (inr tt), (ingest stems_of t r ps (_patterns w)). split; [done|]. split.
  - intros ?. by apply covered_add_words, Hc2.
  - split; [done|]. intros []. eauto.
Qed.

Lemma complete_dec (intent : Intent) : Decision (complete intent).
Proof. unfold complete. apply _. Qed.

(** The whole file: the dictionary is the only thing that changes, the
    result is decided by the first non-empty record with a missing key. *)
Lemma parse_spec (file : list Intent) (w : World) :
  ∃ res p',
    parse (Some file) w = (res, with_patterns p' w)
    ∧ (covered (_patterns w) → covered p')
    ∧ ((∀ r, r ∈ file → truthy r = true → complete r) → res = inr tt)
    ∧ ((∃ r, r ∈ file ∧ truthy r = true ∧ ¬ complete r) →
       ∃ k, res = inl (KeyError k)).
Proof.
  unfold _parse_intents_file.
  revert w. induction file as [|intent file IH]; intros w; simpl.
  - exists (inr tt), (_patterns w). rewrite with_patterns_id.
    split; [done|]. split; [done|]. split; [done|].
    by intros (r & ?%elem_of_nil & _).
  - destruct (truthy intent) eqn:Htruthy.
    + destruct (set_intent_spec intent w) as (res1 & p1 & Hrun & Hcov & Hok & Hko).
      destruct (complete_dec intent) as [Hc|Hc].
      * rewrite (Hok Hc) in Hrun. rewrite (bind_inr _ _ _ _ _ Hrun).
        destruct (IH (with_patterns p1 w)) as (res & p' & Hrest & Hcov' & Hok' & Hko').
        exists res, p'. split; [done|]. split; [auto|]. split.
        -- intros Hall. apply Hok'. intros r Hr. apply Hall. by right.
        -- intros (r & [->|Hr]%elem_of_cons & Ht & Hn); [done|].
           apply Hko'. eauto.
      * destruct (Hko Hc) as [k ->]. rewrite (bind_inl _ _ _ _ _ Hrun).
        exists (inl (KeyError k)), p1. split; [done|]. split; [done|]. split.
        -- intros Hall. destruct Hc. apply Hall; [left | done].
        -- eauto.
    + unfold bind at 1. cbv [ret].
      destruct (IH w) as (res & p' & Hrest & Hcov' & Hok' & Hko').
      exists res, p'. split; [done|]. split; [done|]. split.
      * intros Hall. apply Hok'. intros r Hr. apply Hall. by right.
      * intros (r & [->|Hr]%elem_of_cons & Ht & Hn); [congruence|].
        apply Hko'. eauto.
Qed.

End Ingestion.

(** ** Finalizing: [_sort_all_stems] *)

Lemma sort_tag_stems_eq (w : World) (t : string) (e : Entry) :
  tags (_patterns w) !! t = Some e →
  _sort_tag_stems t w
  = (inr tt, with_patterns {| tags := <[t := sort_entry e]> (tags (_patterns w));
                              all_stems := all_stems (_patterns w) |} w).
Proof.
  intros He. cbv [_sort_tag_stems bind read lift _get_stems]. by rewrite He.
Qed.

Lemma for_sort_tags (l : list string) (w : World) :
  NoDup l → (∀ t, t ∈ l → is_Some (tags (_patterns w) !! t)) →
  ∃ m',
    for_ l _sort_tag_stems w
    = (inr tt, with_patterns {| tags := m'; all_stems := all_stems (_patterns w) |} w)
    ∧ ∀ k, m' !! k = if bool_decide (k ∈ l)
                     then sort_entry <$> tags (_patterns w) !! k
                     else tags (_patterns w) !! k.
Proof.
  revert w. induction l as [|t l IH]; intros w Hnd Hin; simpl.
  - exists (tags (_patterns w)). rewrite patterns_eta, with_patterns_id.
    split; [done|]. by intros k.
  - apply NoDup_cons in Hnd as [Ht Hnd].
    destruct (Hin t) as [e He]; [left|].
    rewrite (bind_inr _ _ _ _ _ (sort_tag_stems_eq w t e He)).
    set (w1 := with_patterns _ w).
    destruct (IH w1 Hnd) as (m' & Hrun & Hm').
    { intros t' Ht'. subst w1. simpl. apply lookup_insert_is_Some'.
      right. apply Hin. by right. }
    exists m'. split; [by rewrite Hrun|].
    intros k. rewrite Hm'. subst w1. cbn [_patterns with_patterns tags].
    destruct (decide (k = t)) as [->|Hne].
    + rewrite (bool_decide_eq_false_2 _ Ht), bool_decide_eq_true_2 by left.
      by rewrite lookup_insert_eq, He.
    + rewrite lookup_insert_ne by done.
      rewrite (bool_decide_ext (k ∈ t :: l) (k ∈ l)); [done|].
      rewrite elem_of_cons. split; [by intros [?|?] | by right].
Qed.

Lemma sort_all_stems_eq (w : World) :
  _sort_all_stems w = (inr tt, with_patterns (finalize (_patterns w)) w).
Proof.
  unfold _sort_all_stems.
  unfold bind at 1, read at 1. unfold bind at 1, write at 1.
  unfold bind at 1, read at 1.
  set (w1 := with_patterns _ w).
  destruct (for_sort_tags ((map_to_list (tags (_patterns w1))).*1) w1)
    as (m' & -> & Hm').
  { apply NoDup_fst_map_to_list. }
  { intros t (te & -> & Hte)%list_elem_of_fmap.
    destruct te as [t e]. apply elem_of_map_to_list in Hte. eauto. }
  subst w1. rewrite with_patterns_twice.
  cbn [_patterns with_patterns tags all_stems] in *.
  unfold finalize, _get_all_stems. do 3 f_equal.
  apply map_eq. intros k. rewrite Hm', lookup_fmap.
  case_bool_decide as Hk; [done|].
  destruct (tags (_patterns w) !! k) as [e|] eqn:He; [|done].
  destruct Hk. apply list_elem_of_fmap. exists (k, e). split; [done|].
  by apply elem_of_map_to_list.
Qed.

Lemma elem_of_tag_stems_union (p : PatternsDict) (x : string) :
  x ∈ tag_stems_union p ↔ held p x.
Proof.
  unfold tag_stems_union, held. rewrite list_elem_of_In, in_concat. split.
  - intros (l & Hl%list_elem_of_In & Hx%list_elem_of_In).
    apply list_elem_of_fmap in Hl as (e & -> & He).
    apply list_elem_of_fmap in He as ([t e'] & -> & He).
    apply elem_of_map_to_list in He. by exists t, e'.
  - intros (t & e & He & Hx). exists (stems e).
    rewrite <- !list_elem_of_In. split; [|done].
    apply list_elem_of_fmap. exists e. split; [done|].
    apply list_elem_of_fmap. exists (t, e). split; [done|].
    by apply elem_of_map_to_list.
Qed.

Lemma held_finalize (p : PatternsDict) (x : string) :
  held (finalize p) x ↔ held p x.
Proof.
  unfold held, finalize. simpl. split.
  - intros (t & e & He & Hx). rewrite lookup_fmap in He.
    destruct (tags p !! t) as [e'|] eqn:He'; simplify_eq/=.
    rewrite elem_of_sorted_set in Hx. eauto.
  - intros (t & e & He & Hx). exists t, (sort_entry e).
    rewrite lookup_fmap, He. split; [done|]. by apply elem_of_sorted_set.
Qed.

(** What finalizing establishes from a covering dictionary. *)
Lemma finalize_stems (p : PatternsDict) :
  covered p →
  all_stems (finalize p) = sorted_set (tag_stems_union (finalize p)).
Proof.
  intros Hp. simpl. apply sorted_set_ext. intros x.
  by rewrite elem_of_tag_stems_union, held_finalize, (Hp x).
Qed.

Lemma covered_finalize (p : PatternsDict) : covered p → covered (finalize p).
Proof.
  intros Hp x. fold (held (finalize p) x). rewrite held_finalize. simpl.
  by rewrite elem_of_sorted_set, (Hp x).
Qed.

(** ** Training data only reads the dictionary *)

Lemma keeps_for_collect {A B} (l : list A) (body : A → M (list B)) :
  (∀ a, keeps_patterns (body a)) → keeps_patterns (collect l body).
Proof.
  intros Hbody. induction l as [|a l IH]; simpl; [apply keeps_ret|].
  apply keeps_bind; [done|]. intros rows.
  apply keeps_bind; [done|]. intros rest. apply keeps_ret.
Qed.

Lemma keeps_shuffle_from {A} (i : nat) (x : list A) :
  keeps_patterns (shuffle_from i x).
Proof.
  revert x. induction i as [|i IH]; intros x; simpl; [apply keeps_ret|].
  apply keeps_bind; [apply keeps_randbelow | done].
Qed.

Lemma keeps_training_rows : keeps_patterns training_rows.
Proof.
  unfold training_rows. apply keeps_bind; [apply keeps_read|]. intros p.
  apply keeps_for_collect. intros t.
  apply keeps_bind; [apply keeps_read|]. intros p'.
  apply keeps_bind; [apply keeps_lift|]. intros ss.
  apply keeps_for_collect. intros s.
  apply keeps_bind; [apply keeps_lift|]. intros row. apply keeps_ret.
Qed.

Lemma keeps_make_training_data : keeps_patterns _make_training_data.
Proof.
  unfold _make_training_data.
  apply keeps_bind; [apply keeps_training_rows|]. intros rows.
  apply keeps_bind; [apply keeps_shuffle_from|]. intros rows'.
  apply keeps_lift.
Qed.

Section Convert.
Context (word_char : ascii → bool) (lower_char : ascii → ascii).
Context (stem : string → string) (_stoplist : list string).

Local Abbreviation parse :=
  (_parse_intents_file word_char lower_char stem _stoplist).
Local Abbreviation convert :=
  (convert_intents word_char lower_char stem _stoplist).

Lemma convert_intents_failed (file : option (list Intent)) (w w1 : World) (e : exn) :
  parse file w = (inl e, w1) → convert file w = (inl e, w1).
Proof. intros Hparse. unfold convert_intents. by apply bind_inl. Qed.

Lemma convert_intents_parsed (file : option (list Intent)) (w w1 : World) :
  parse file w = (inr tt, w1) →
  let p := finalize (_patterns w1) in
  _patterns (snd (convert file w)) = p
  ∧ pickles (snd (convert file w)) = pickles w1 ++ [p].
Proof.
  intros Hparse p. unfold convert_intents.
  rewrite (bind_inr _ _ _ _ _ Hparse).
  rewrite (bind_inr _ _ _ _ _ (sort_all_stems_eq w1)).
  unfold bind at 1, read at 1. unfold bind at 1, _save at 1.
  match goal with
  | |- context [_make_training_data ?w'] =>
      destruct (keeps_make_training_data w') as [H1 H2]
  end.
  split; [etrans; [apply H1|] | etrans; [apply H2|]]; done.
Qed.

(** C1: when the intents file is read to its end from a new [Patterns()],
    what [convert_intents] leaves in [self._patterns], and pickles, has a
    global stems list equal to the sorted, duplicate-free union of the
    stems lists of all tags; that list is in lexicographic order and no
    stem occurs twice. *)
Theorem convert_intents_global_stems
    (file : list Intent) (r : Random) :
  fst (parse (Some file) (fresh_world r)) = inr tt →
  let w := snd (convert (Some file) (fresh_world r)) in
  let p := _patterns w in
  all_stems p = sorted_set (tag_stems_union p)
  ∧ Sorted String.le (all_stems p)
  ∧ NoDup (all_stems p)
  ∧ pickles w = [p].
Proof.
  intros Hok w p.
  destruct (parse_spec word_char lower_char stem _stoplist file (fresh_world r))
    as (res & p1 & Hparse & Hcov & _).
  rewrite Hparse in Hok. simpl in Hok. subst res.
  destruct (convert_intents_parsed _ _ _ Hparse) as [Hp Hfiles].
  fold w in Hp, Hfiles. fold p in Hp. simpl in Hp, Hfiles.
  rewrite Hfiles, Hp.
  split; [|split; [|split]]; [|apply Sorted_sorted_set|apply NoDup_sorted_set|done].
  apply finalize_stems, Hcov, covered_empty.
Qed.

(** C5, as the code has it: when some non-empty record of the file lacks
    the key [tag] or the key [responses], [convert_intents] fails, with the
    [KeyError] of the dictionary access, and aborts before anything is
    pickled: no vocabulary, partial or whole, is persisted. *)
Theorem convert_intents_missing_key (file : list Intent) (w : World) :
  (∃ r, r ∈ file ∧ truthy r = true ∧ (tag r = None ∨ responses r = None)) →
  ∃ k, fst (convert (Some file) w) = inl (KeyError k)
       ∧ pickles (snd (convert (Some file) w)) = pickles w.
Proof.
  intros (r & Hr & Ht & Hmiss).
  destruct (parse_spec word_char lower_char stem _stoplist file w)
    as (res & p1 & Hparse & _ & _ & Hko).
  destruct Hko as [k ->].
  { exists r. split; [done|]. split; [done|].
    intros (Htag & Hresp & _). destruct Hmiss as [Hm|Hm]; rewrite Hm in *;
      by eapply is_Some_None. }
  exists k. by rewrite (convert_intents_failed _ _ _ _ Hparse).
Qed.

End Convert.

(** ** Training data *)

Lemma insert_replicate_one_hot (n i : nat) :
  i < n → one_hot n i (<[i := true]> (replicate n false)).
Proof.
  intros Hi. split; [by rewrite length_insert, length_replicate|].
  split; [done|]. intros k. destruct (decide (k = i)) as [->|Hne].
  - rewrite list_lookup_insert_eq by (by rewrite length_replicate). done.
  - rewrite list_lookup_insert_ne by done. rewrite lookup_replicate.
    split; [by intros [[=] _] | done].
Qed.

Lemma index_elem_of (l : list string) (x : string) :
  x ∈ l → ∃ i, index (=) l x = inr i ∧ l !! i = Some x.
Proof.
  intros Hx. unfold index.
  destruct (list_find_elem_of (λ y, y = x) l x Hx eq_refl) as [[i y] Hfind].
  rewrite Hfind. apply list_find_Some in Hfind as (Hi & -> & _). eauto.
Qed.

Lemma training_row_spec (p : PatternsDict) (t s : string) :
  s ∈ all_stems p → t ∈ _get_all_tags p →
  ∃ row, training_row (_get_all_tags p) (all_stems p) t s = inr row
         ∧ example_of p t s row.
Proof.
  intros Hs Ht. unfold training_row.
  destruct (index_elem_of _ _ Hs) as (i & -> & Hi).
  destruct (index_elem_of _ _ Ht) as (j & -> & Hj).
  eexists. split; [done|]. exists i, j. split; [done|]. split; [done|]. split.
  - apply insert_replicate_one_hot. by eapply lookup_lt_Some.
  - rewrite <- length_get_all_tags.
    apply insert_replicate_one_hot. by eapply lookup_lt_Some.
Qed.

Lemma collect_spec {A B} (R : A → list B → Prop) (l : list A)
    (body : A → M (list B)) (w : World) :
  (∀ a, a ∈ l → ∃ rows, body a w = (inr rows, w) ∧ R a rows) →
  ∃ rowss, collect l body w = (inr (concat rowss), w) ∧ Forall2 R l rowss.
Proof.
  induction l as [|a l IH]; intros Hbody; simpl.
  - exists []. split; [done|]. constructor.
  - destruct (Hbody a) as (rows & Ha & HR); [left|].
    destruct IH as (rowss & Hl & HRs).
    { intros a' Ha'. apply Hbody. by right. }
    exists (rows :: rowss). split; [|by constructor].
    rewrite (bind_inr _ _ _ _ _ Ha), (bind_inr _ _ _ _ _ Hl). done.
Qed.

Lemma training_rows_spec (w : World) :
  let p := _patterns w in
  covered p →
  ∃ rowss,
    training_rows w = (inr (concat rowss), w)
    ∧ Forall2 (λ t rows, ∃ e, tags p !! t = Some e
                              ∧ Forall2 (example_of p t) (stems e) rows)
        (_get_all_tags p) rowss.
Proof.
  intros p Hp. unfold training_rows, bind at 1, read at 1. fold p.
  apply collect_spec. intros t Ht.
  pose proof Ht as [e He]%elem_of_get_all_tags.
  unfold bind at 1, read at 1. fold p.
  unfold bind at 1, _get_stems. rewrite He. cbn [lift ret].
  destruct (collect_spec (λ s rows, ∃ row, rows = [row] ∧ example_of p t s row)
              (stems e)
              (λ s, row <~ lift (training_row (_get_all_tags p) (_get_all_stems p) t s) ;;
                    ret [row]) w) as (rowss & Hrun & Hrows).
  { intros s Hs. destruct (training_row_spec p t s) as (row & Hrow & Hex).
    - apply Hp. by exists t, e.
    - done.
    - exists [row]. unfold _get_all_stems. rewrite Hrow. split; [done|]. eauto. }
  exists (concat rowss). split; [done|]. exists e. split; [done|].
  clear Hrun. induction Hrows as [|s rows ss rowss (row & -> & Hrow) _ IH]; simpl.
  - constructor.
  - by constructor.
Qed.

Lemma sum_list_Permutation (l k : list nat) : l ≡ₚ k → sum_list l = sum_list k.
Proof. induction 1; simpl; lia. Qed.

Lemma length_training_rows (p : PatternsDict) {B} (rowss : list (list B)) :
  Forall2 (λ t rows, ∃ e, tags p !! t = Some e ∧ length rows = length (stems e))
    (_get_all_tags p) rowss →
  length (concat rowss) = example_count p.
Proof.
  intros Hrows.
  set (g := λ t, match tags p !! t with Some e => length (stems e) | None => 0 end).
  transitivity (sum_list (g <$> _get_all_tags p)).
  { induction Hrows as [|t rows ts rowss (e & He & Hlen) _ IH]; simpl; [done|].
    rewrite length_app, IH, Hlen. unfold g at 2. by rewrite He. }
  unfold example_count, _get_all_tags.
  rewrite (sum_list_Permutation _ (g <$> (map_to_list (tags p)).*1)).
  2:{ by rewrite sorted_Permutation. }
  f_equal. rewrite <- !list_fmap_compose. apply list_fmap_ext.
  intros i [t e] Hte. simpl.
  apply list_elem_of_lookup_2, elem_of_map_to_list in Hte.
  unfold g. by rewrite Hte.
Qed.

Lemma swap_Permutation {A} (x : list A) (i j : nat) : swap x i j ≡ₚ x.
Proof.
  unfold swap. destruct (x !! i) as [a|] eqn:Ha; [|done].
  destruct (x !! j) as [b|] eqn:Hb; [|done].
  pose proof (lookup_lt_Some _ _ _ Ha) as Hi.
  pose proof (lookup_lt_Some _ _ _ Hb) as Hj.
  apply Permutation_inj. split; [by rewrite !length_insert|].
  exists (λ k, if decide (k = i) then j else if decide (k = j) then i else k).
  split.
  - intros k1 k2. repeat case_decide; lia.
  - intros k. destruct (decide (k = j)) as [->|Hkj].
    + rewrite list_lookup_insert_eq by (by rewrite length_insert).
      case_decide; by subst.
    + rewrite list_lookup_insert_ne by done.
      destruct (decide (k = i)) as [->|Hki].
      * by rewrite list_lookup_insert_eq.
      * by rewrite list_lookup_insert_ne.
Qed.

Lemma shuffle_from_spec {A} (i : nat) (x : list A) (w : World) :
  ∃ x' w', shuffle_from i x w = (inr x', w') ∧ x' ≡ₚ x.
Proof.
  revert x w. induction i as [|i IH]; intros x w; simpl.
  - by exists x, w.
  - unfold bind, randbelow at 1.
    match goal with
    | |- context [shuffle_from i ?y ?w1] =>
        destruct (IH y w1) as (x' & w' & Hrun & Hperm)
    end.
    exists x', w'. split; [done|]. by rewrite Hperm, swap_Permutation.
Qed.

(** What [_make_training_data] returns when at least one tag has a stem:
    as many examples as the tags have stems in total, each the one-hot
    pair of a stem of a tag. *)
Lemma make_training_data_spec (w : World) :
  let p := _patterns w in
  covered p → 0 < example_count p →
  ∃ xs ys w',
    _make_training_data w = (inr (xs, ys), w')
    ∧ length xs = example_count p
    ∧ length ys = example_count p
    ∧ Forall2 (λ x y, ∃ t e s, tags p !! t = Some e ∧ s ∈ stems e
                               ∧ example_of p t s (x, y)) xs ys.
Proof.
  intros p Hp Hcount.
  destruct (training_rows_spec w Hp) as (rowss & Hrows & Hall). fold p in Hall.
  unfold _make_training_data. rewrite (bind_inr _ _ _ _ _ Hrows).
  destruct (shuffle_from_spec (length (concat rowss) - 1) (concat rowss) w)
    as (rows' & w' & Hshuffle & Hperm).
  unfold shuffle. rewrite (bind_inr _ _ _ _ _ Hshuffle).
  assert (length (concat rowss) = example_count p) as Hlen.
  { apply length_training_rows. eapply Forall2_impl; [apply Hall|].
    intros t rows (e & He & Hex). exists e. split; [done|].
    symmetry. by eapply Forall2_length. }
  assert (Forall (λ row, ∃ t e s, tags p !! t = Some e ∧ s ∈ stems e
                                  ∧ example_of p t s row) (concat rowss)) as Hex.
  { clear -Hall. induction Hall as [|t rows ts rowss (e & He & Hrs) _ IH]; simpl.
    - constructor.
    - apply Forall_app. split; [|done].
      apply Forall_forall. intros row Hrow.
      apply list_elem_of_lookup in Hrow as [k Hk].
      destruct (Forall2_lookup_r _ _ _ k row Hrs Hk) as (s & Hs & Hsr).
      exists t, e, s. split; [done|]. split; [|done].
      apply list_elem_of_lookup. eauto. }
  rewrite <- Hperm in Hex, Hlen.
  exists (rows'.*1), (rows'.*2), w'. split.
  { unfold columns. destruct rows'; [simpl in Hlen; lia | done]. }
  rewrite !length_fmap. split; [done|]. split; [done|].
  clear -Hex. induction Hex as [|[x y] rows Hrow _ IH]; simpl; by constructor.
Qed.

Section Training.
Context (word_char : ascii → bool) (lower_char : ascii → ascii).
Context (stem : string → string) (_stoplist : list string).

Local Abbreviation parse :=
  (_parse_intents_file word_char lower_char stem _stoplist).
Local Abbreviation convert :=
  (convert_intents word_char lower_char stem _stoplist).

Lemma convert_intents_unfold (file : option (list Intent)) (w w1 : World) :
  parse file w = (inr tt, w1) →
  convert file w
  = _make_training_data
      {| _patterns := finalize (_patterns w1); random := random w1;
         pickles := pickles w1 ++ [finalize (_patterns w1)] |}.
Proof.
  intros Hparse. unfold convert_intents.
  rewrite (bind_inr _ _ _ _ _ Hparse).
  by rewrite (bind_inr _ _ _ _ _ (sort_all_stems_eq w1)).
Qed.

(** What [convert_intents] returns, from a new [Patterns()], for a file
    read to its end that gives at least one stem to some tag: as many
    examples as the tags have stems in total, each the one-hot pair of a
    stem of a tag. *)
Lemma convert_intents_training_data (file : list Intent) (r : Random) :
  fst (parse (Some file) (fresh_world r)) = inr tt →
  let run := convert (Some file) (fresh_world r) in
  let p := _patterns (snd run) in
  0 < example_count p →
  ∃ xs ys,
    fst run = inr (xs, ys)
    ∧ length xs = example_count p
    ∧ length ys = example_count p
    ∧ Forall2 (λ x y, ∃ t e s, tags p !! t = Some e ∧ s ∈ stems e
                               ∧ example_of p t s (x, y)) xs ys.
Proof.
  intros Hok run p.
  destruct (parse_spec word_char lower_char stem _stoplist file (fresh_world r))
    as (res & p1 & Hparse & Hcov & _).
  rewrite Hparse in Hok. simpl in Hok. subst res.
  destruct (convert_intents_parsed _ _ _ _ _ _ _ Hparse) as [Hp _].
  fold run in Hp. fold p in Hp. cbn [_patterns with_patterns] in Hp.
  subst run. rewrite (convert_intents_unfold _ _ _ Hparse).
  rewrite Hp. intros Hcount.
  match goal with
  | |- context [_make_training_data ?w2] =>
      destruct (make_training_data_spec w2) as (xs & ys & w' & Hrun & Hlen)
  end.
  { apply covered_finalize, Hcov, covered_empty. }
  { done. }
  exists xs, ys. by rewrite Hrun.
Qed.

End Training.

(** ** Concrete runs *)

(** C2 at a file no tag of which has a stem: the file is read to its end
    and finalized, the tags have zero stems in total, and
    [_make_training_data] does not return zero examples: the two-index
    slice of the empty array raises [IndexError]. *)
Theorem make_training_data_without_stems
    (word_char : ascii → bool) (lower_char : ascii → ascii)
    (stem : string → string) (_stoplist : list string) (r : Random) :
  let start := fresh_world r in
  let run :=
    convert_intents word_char lower_char stem _stoplist
      (Some noanswer_only_file) start in
  fst (_parse_intents_file word_char lower_char stem _stoplist
         (Some noanswer_only_file) start) = inr tt
  ∧ example_count (_patterns (snd run)) = 0
  ∧ fst run = inl IndexError.
Proof. by vm_compute. Qed.

(** The same for every dictionary whose tags have no stem at all. *)
Lemma make_training_data_empty (w : World) :
  (∀ t e, tags (_patterns w) !! t = Some e → stems e = []) →
  _make_training_data w = (inl IndexError, w).
Proof.
  intros Hempty.
  assert (training_rows w = (inr [], w)) as Hrows.
  { unfold training_rows, bind at 1, read at 1.
    destruct (collect_spec (λ _ rows, rows = [])
                (_get_all_tags (_patterns w))
                (λ t, p <~ read ;; ss <~ lift (_get_stems p t) ;;
                      collect ss (λ s,
                        row <~ lift (training_row (_get_all_tags (_patterns w))
                                       (_get_all_stems (_patterns w)) t s) ;;
                        ret [row])) w) as (rowss & -> & Hall).
    - intros t [e He]%elem_of_get_all_tags. exists []. split; [|done].
      unfold bind at 1, read at 1. unfold bind at 1, _get_stems.
      rewrite He, (Hempty _ _ He). done.
    - f_equal. f_equal. clear -Hall.
      induction Hall as [|t rows ts rowss -> _ IH]; simpl; [done|]. apply IH. }
  unfold _make_training_data. rewrite (bind_inr _ _ _ _ _ Hrows). done.
Qed.

(** C5, the claim as written fails: a file that never defines
    ["noanswer"] is converted without any error and its vocabulary is
    pickled; so is a file one record of which, being empty, has neither
    [tag] nor [responses]. *)
Lemma lacking_files_are_accepted :
  ((∀ r, r ∈ hello_only_file → tag r ≠ Some "noanswer")
   ∧ fst (run_convert hello_only_file)
     = inr ([[false; true]; [true; false]], [[true]; [true]])
   ∧ length (pickles (snd (run_convert hello_only_file))) = 1)
  ∧ ((∃ r, r ∈ empty_record_file ∧ tag r = None ∧ responses r = None)
     ∧ fst (run_convert empty_record_file)
       = inr ([[false; true]; [true; false]], [[true; false]; [true; false]])
     ∧ length (pickles (snd (run_convert empty_record_file))) = 1).
Proof.
  split; (split; [|by vm_compute]).
  - intros r ->%list_elem_of_singleton. done.
  - exists {| tag := None; patterns := None; responses := None; context := None |}.
    split; [|done]. apply elem_of_app. right. left.
Qed.

(** When ingestion fails, the records read before the failure stay in the
    dictionary of the instance; nothing is pickled. *)
Example failed_ingestion_keeps_earlier_records :
  fst (run_convert broken_file) = inl (KeyError "responses")
  ∧ (stems <$> tags (_patterns (snd (run_convert broken_file))) !! "hello_intent")
    = Some ["hello"; "hi"]
  ∧ is_Some (tags (_patterns (snd (run_convert broken_file))) !! "bye_intent")
  ∧ pickles (snd (run_convert broken_file)) = [].
Proof. split; [by vm_compute|]. split; [by vm_compute|]. split; [|by vm_compute].
  vm_compute. eauto. Qed.

(** The end-to-end example of the class docstring. *)
Example docstring_vocabulary :
  _get_all_tags (_patterns docstring_world) = ["hello_intent"; "noanswer"]
  ∧ all_stems (_patterns docstring_world) = ["hello"; "hi"]
  ∧ fst (convert_sentence ascii_word ascii_lower (λ s, s) stoplist_excerpt
           "Hello World !" docstring_world) = inr [true; false].
Proof. by vm_compute. Qed.

(** ** Witnesses *)

Lemma convert_intents_global_stems_witness :
  fst (_parse_intents_file ascii_word ascii_lower (λ s, s) stoplist_excerpt
         (Some docstring_file) (fresh_world counting)) = inr tt
  ∧ all_stems (_patterns docstring_world)
    = sorted_set (tag_stems_union (_patterns docstring_world))
  ∧ Sorted String.le (all_stems (_patterns docstring_world))
  ∧ NoDup (all_stems (_patterns docstring_world))
  ∧ pickles docstring_world = [_patterns docstring_world].
Proof.
  split; [by vm_compute|].
  apply (convert_intents_global_stems ascii_word ascii_lower (λ s, s)
           stoplist_excerpt docstring_file counting).
  by vm_compute.
Defined.

Lemma predict_threshold_argmax_witness :
  _predict (λ _, [1 # 10; 95 # 100; 95 # 100]) [true; false] docstring_world
    = (inr 1%Z, docstring_world)
  ∧ _predict (λ _, [1 # 2; 1 # 2]) [true; false] docstring_world
    = (inr (-1)%Z, docstring_world)
  ∧ _predict (λ _, [float_0_9; 1 # 10]) [true; false] docstring_world
    = (inr (-1)%Z, docstring_world)
  ∧ _predict (λ _, [1 # 10; 8106479329266894 # 9007199254740992])
      [true; false] docstring_world
    = (inr 1%Z, docstring_world).
Proof.
  split; [|split; [|split]].
  3:{ apply (predict_threshold_argmax (λ _, [float_0_9; 1 # 10])
               docstring_world [true; false] 0 float_0_9).
      - reflexivity.
      - intros [|[|j]] x Hx; simplify_eq/=; by vm_compute.
      - intros j x Hj. lia.
      - by vm_compute. }
  3:{ apply (predict_threshold_argmax
               (λ _, [1 # 10; 8106479329266894 # 9007199254740992])
               docstring_world [true; false] 1
               (8106479329266894 # 9007199254740992)).
      - reflexivity.
      - intros [|[|j]] x Hx; simplify_eq/=; by vm_compute.
      - intros [|j] x Hj Hx; simplify_eq/=; first [lia | by vm_compute].
      - by vm_compute. }
  - apply (predict_threshold_argmax (λ _, [1 # 10; 95 # 100; 95 # 100])
             docstring_world [true; false] 1 (95 # 100)).
    + reflexivity.
    + intros [|[|[|j]]] x Hx; simplify_eq/=; by vm_compute.
    + intros [|[|j]] x Hj Hx; simplify_eq/=; first [lia | by vm_compute].
    + by vm_compute.
  - apply (predict_threshold_argmax (λ _, [1 # 2; 1 # 2])
             docstring_world [true; false] 0 (1 # 2)).
    + reflexivity.
    + intros [|[|j]] x Hx; simplify_eq/=; by vm_compute.
    + intros j x Hj. lia.
    + by vm_compute.
Defined.

Lemma convert_intents_missing_key_witness :
  (∃ r, r ∈ broken_file ∧ truthy r = true ∧ (tag r = None ∨ responses r = None))
  ∧ ∃ k, fst (run_convert broken_file) = inl (KeyError k)
         ∧ pickles (snd (run_convert broken_file)) = pickles (fresh_world counting).
Proof.
  assert (∃ r, r ∈ broken_file ∧ truthy r = true
                ∧ (tag r = None ∨ responses r = None)) as Hbroken.
  { eexists. split; [right; left|]. split; [reflexivity | right; reflexivity]. }
  split; [exact Hbroken|].
  exact (convert_intents_missing_key ascii_word ascii_lower (λ s, s)
           stoplist_excerpt broken_file (fresh_world counting) Hbroken).
Defined.

Lemma choose_answer_member_witness :
  (∃ a, fst (choose_answer 0 docstring_world) = inr a
        ∧ a ∈ ["Hey you !"; "Hello."])
  ∧ fst (choose_answer 0 mute_world) = inl IndexError.
Proof.
  split.
  - apply (choose_answer_member docstring_world 0 "hello_intent"
             {| stems := ["hello"; "hi"]; answers := ["Hey you !"; "Hello."] |}).
    + by vm_compute.
    + by vm_compute.
    + done.
  - apply (choose_answer_member mute_world 0 "mute"
             {| stems := ["hush"]; answers := [] |}).
    + by vm_compute.
    + by vm_compute.
    + done.
Defined.

Lemma index_outside_tag_list_witness :
  (_get_tag_by_index (-7) docstring_world = (inr "noanswer", docstring_world)
   ∧ choose_answer (-7) docstring_world = answer_for "noanswer" docstring_world)
  ∧ (_get_tag_by_index 2 docstring_world = (inl IndexError, docstring_world)
     ∧ choose_answer 2 docstring_world = (inl IndexError, docstring_world)).
Proof.
  split.
  - apply (index_outside_tag_list docstring_world (-7)). lia.
  - apply (index_outside_tag_list docstring_world 2). by vm_compute.
Defined.

(** * Further properties *)

(** ** What ingestion stores *)

Lemma lookup_ensure_tag (t t' : string) (p : PatternsDict) :
  tags (ensure_tag t p) !! t'
  = if decide (t' = t) then Some (entry_at p t) else tags p !! t'.
Proof.
  unfold ensure_tag, entry_at. case_bool_decide as Ht.
  - apply elem_of_get_all_tags in Ht as [e He].
    case_decide; [subst; by rewrite He | done].
  - simpl. case_decide as Heq.
    + subst. rewrite lookup_insert_eq.
      rewrite elem_of_get_all_tags in Ht. apply eq_None_not_Some in Ht.
      by rewrite Ht.
    + by rewrite lookup_insert_ne.
Qed.

Lemma lookup_add_answers (t t' : string) (new : list string) (p : PatternsDict) :
  tags (add_answers t new p) !! t'
  = if decide (t' = t)
    then (λ e, {| stems := stems e; answers := answers e ++ new |}) <$> tags p !! t
    else tags p !! t'.
Proof.
  unfold add_answers. destruct (tags p !! t) as [e|] eqn:He; simpl.
  - case_decide; [subst; by rewrite lookup_insert_eq | by rewrite lookup_insert_ne].
  - case_decide; [by subst | done].
Qed.

Lemma lookup_add_word (t t' x : string) (p : PatternsDict) :
  tags (add_word t x p) !! t'
  = if decide (t' = t)
    then (λ e, {| stems := if bool_decide (x ∈ stems e) then stems e
                           else stems e ++ [x];
                  answers := answers e |}) <$> tags p !! t
    else tags p !! t'.
Proof.
  unfold add_word. destruct (tags p !! t) as [e|] eqn:He; simpl.
  - case_bool_decide.
    + case_decide; [subst; rewrite He; by destruct e | done].
    + case_decide; [subst; by rewrite lookup_insert_eq | by rewrite lookup_insert_ne].
  - case_decide; [by subst | done].
Qed.

Lemma lookup_add_words (t t' : string) (l : list string) (p : PatternsDict) :
  (t' ≠ t → tags (add_words t l p) !! t' = tags p !! t')
  ∧ ∀ e, tags p !! t = Some e →
      ∃ e', tags (add_words t l p) !! t = Some e'
            ∧ answers e' = answers e
            ∧ ∀ y, y ∈ stems e' ↔ y ∈ stems e ∨ y ∈ l.
Proof.
  revert p. induction l as [|x l IH]; intros p.
  - split; [done|]. intros e He. exists e. split; [done|]. split; [done|].
    intros y. split; [by left|]. by intros [?|?%elem_of_nil].
  - destruct (IH (add_word t x p)) as [IHne IHeq]. split.
    + intros Hne. change (add_words t (x :: l) p) with (add_words t l (add_word t x p)).
      rewrite IHne by done. rewrite lookup_add_word. by rewrite decide_False.
    + intros e He.
      change (add_words t (x :: l) p) with (add_words t l (add_word t x p)).
      destruct (IHeq {| stems := if bool_decide (x ∈ stems e) then stems e
                                 else stems e ++ [x];
                        answers := answers e |}) as (e' & He' & Ha & Hs).
      { rewrite lookup_add_word, decide_True by done. by rewrite He. }
      exists e'. split; [done|]. split; [done|]. intros y. rewrite Hs. simpl.
      rewrite elem_of_cons. case_bool_decide as Hx.
      * split; [tauto|]. intros [?|[->|?]]; tauto.
      * rewrite elem_of_app, list_elem_of_singleton. tauto.
Qed.

Lemma entry_at_ingest (stems_of : string → list string) (t t' : string)
    (r ps : list string) (p : PatternsDict) :
  let q := ingest stems_of t r ps p in
  (is_Some (tags q !! t') ↔ t' = t ∨ is_Some (tags p !! t'))
  ∧ answers (entry_at q t')
    = answers (entry_at p t') ++ (if decide (t' = t) then r else [])
  ∧ ∀ y, y ∈ stems (entry_at q t')
         ↔ y ∈ stems (entry_at p t') ∨ (t' = t ∧ y ∈ concat (stems_of <$> ps)).
Proof.
  intros q. subst q. unfold ingest.
  set (p1 := ensure_tag t p). set (p2 := add_answers t r p1).
  destruct (lookup_add_words t t' (concat (stems_of <$> ps)) p2) as [Hne Heq].
  destruct (decide (t' = t)) as [->|Hneq].
  - assert (tags p2 !! t
            = Some {| stems := stems (entry_at p t);
                      answers := answers (entry_at p t) ++ r |}) as H2.
    { subst p2 p1. rewrite lookup_add_answers, decide_True by done.
      by rewrite lookup_ensure_tag, decide_True. }
    destruct (Heq _ H2) as (e' & He' & Ha & Hs).
    unfold entry_at at 1 3. rewrite He'. simpl. split; [|split].
    + split; [by left | eauto].
    + by rewrite Ha.
    + intros y. rewrite Hs. simpl. tauto.
  - unfold entry_at. rewrite (Hne Hneq). subst p2 p1.
    rewrite lookup_add_answers, decide_False by done.
    rewrite lookup_ensure_tag, decide_False by done.
    split; [|split].
    + split; [by right | by intros [?|?]].
    + by rewrite app_nil_r.
    + intros y. split; [by left | by intros [?|[? _]]].
Qed.

Lemma truthy_false_tag (intent : Intent) : truthy intent = false → tag intent = None.
Proof.
  unfold truthy. destruct (tag intent); [|done].
  rewrite bool_decide_eq_true_2 by eauto. done.
Qed.

Lemma ingest_file_cons (stems_of : string → list string) (intent : Intent)
    (file : list Intent) (p : PatternsDict) :
  ingest_file stems_of (intent :: file) p
  = ingest_file stems_of file
      (if truthy intent then ingest_record stems_of intent p else p).
Proof. done. Qed.

Lemma responses_of_cons (t : string) (intent : Intent) (file : list Intent) :
  responses_of t (intent :: file)
  = (if bool_decide (tag intent = Some t) then default [] (responses intent)
     else []) ++ responses_of t file.
Proof. done. Qed.

Lemma pattern_stems_of_cons (stems_of : string → list string) (t : string)
    (intent : Intent) (file : list Intent) :
  pattern_stems_of stems_of t (intent :: file)
  = (if bool_decide (tag intent = Some t)
     then concat (stems_of <$> default [] (patterns intent)) else [])
    ++ pattern_stems_of stems_of t file.
Proof. done. Qed.

Lemma entry_at_ingest_file (stems_of : string → list string)
    (file : list Intent) (p : PatternsDict) (t : string) :
  (∀ r, r ∈ file → truthy r = true → complete r) →
  let q := ingest_file stems_of file p in
  (is_Some (tags q !! t) ↔ is_Some (tags p !! t) ∨ ∃ i, i ∈ file ∧ tag i = Some t)
  ∧ answers (entry_at q t) = answers (entry_at p t) ++ responses_of t file
  ∧ ∀ y, y ∈ stems (entry_at q t)
         ↔ y ∈ stems (entry_at p t) ∨ y ∈ pattern_stems_of stems_of t file.
Proof.
  revert p. induction file as [|intent file IH]; intros p Hall q; subst q.
  - split; [|split].
    + split; [by left|]. by intros [?|(i & ?%elem_of_nil & _)].
    + unfold responses_of. simpl. by rewrite app_nil_r.
    + intros y. split; [by left|]. by intros [?|?%elem_of_nil].
  - assert (∀ r, r ∈ file → truthy r = true → complete r) as Hall'.
    { intros r Hr. apply Hall. by right. }
    rewrite ingest_file_cons, responses_of_cons, pattern_stems_of_cons.
    destruct (truthy intent) eqn:Htruthy.
    + destruct (Hall intent) as ([t0 Ht0] & [r Hr] & [ps Hps]); [left|done|].
      unfold ingest_record. rewrite Ht0, Hr, Hps. cbn [default from_option id].
      destruct (IH (ingest stems_of t0 r ps p) Hall') as (Hin & Hans & Hstems).
      destruct (entry_at_ingest stems_of t0 t r ps p) as (Hin1 & Hans1 & Hstems1).
      split; [|split].
      * rewrite Hin, Hin1. split.
        -- intros [[->|?]|(i & Hi & Hti)]; [|by left|].
           ++ right. exists intent. split; [left | done].
           ++ right. exists i. split; [by right | done].
        -- intros [?|(i & [->|Hi]%elem_of_cons & Hti)].
           ++ left. by right.
           ++ left. left. congruence.
           ++ right. eauto.
      * rewrite Hans, Hans1, <- app_assoc. f_equal. f_equal.
        case_decide as Hd; case_bool_decide as Hb; try done.
        -- destruct Hb. by subst.
        -- destruct Hd. congruence.
      * intros y. rewrite Hstems, Hstems1, elem_of_app.
        case_bool_decide as Hb.
        -- assert (t = t0) by congruence. tauto.
        -- rewrite elem_of_nil. split; [|tauto].
           intros [[?|[-> _]]|?]; [tauto| |tauto]. by destruct Hb.
    + apply truthy_false_tag in Htruthy.
      destruct (IH p Hall') as (Hin & Hans & Hstems).
      rewrite !bool_decide_eq_false_2 by congruence. cbn [app].
      split; [|split]; [|done|done].
      rewrite Hin. split.
      * intros [?|(i & Hi & Hti)]; [by left|]. right. exists i. split; [by right|done].
      * intros [?|(i & [->|Hi]%elem_of_cons & Hti)]; [by left|congruence|eauto].
Qed.

Section Stored.
Context (word_char : ascii → bool) (lower_char : ascii → ascii).
Context (stem : string → string) (_stoplist : list string).

Local Abbreviation stems_of := (_stemming word_char lower_char stem _stoplist).
Local Abbreviation set_intent :=
  (_set_intent word_char lower_char stem _stoplist).
Local Abbreviation parse :=
  (_parse_intents_file word_char lower_char stem _stoplist).
Local Abbreviation convert :=
  (convert_intents word_char lower_char stem _stoplist).

Lemma set_intent_complete (intent : Intent) (w : World) :
  complete intent →
  set_intent intent w
  = (inr tt, with_patterns (ingest_record stems_of intent (_patterns w)) w).
Proof.
  intros ([t Ht] & [r Hr] & [ps Hps]).
  rewrite set_intent_unfold. unfold ingest_record. rewrite Ht, Hr, Hps. simpl.
  rewrite set_answers_eq by apply ensure_tag_has_tag.
  rewrite set_stems_eq by (by apply add_answers_has_tag, ensure_tag_has_tag).
  done.
Qed.

Lemma parse_complete (file : list Intent) (w : World) :
  (∀ r, r ∈ file → truthy r = true → complete r) →
  parse (Some file) w
  = (inr tt, with_patterns (ingest_file stems_of file (_patterns w)) w).
Proof.
  unfold _parse_intents_file.
  revert w. induction file as [|intent file IH]; intros w Hall; cbn [for_].
  - unfold ingest_file. simpl. by rewrite with_patterns_id.
  - assert (∀ r, r ∈ file → truthy r = true → complete r) as Hall'.
    { intros r Hr. apply Hall. by right. }
    rewrite ingest_file_cons.
    destruct (truthy intent) eqn:Htruthy.
    + rewrite (bind_inr _ _ _ _ _ (set_intent_complete intent w
                 (Hall intent ltac:(left) Htruthy))).
      by rewrite IH.
    + unfold bind at 1. cbv [ret]. by rewrite IH.
Qed.

Lemma parse_ok_complete (file : list Intent) (w : World) :
  fst (parse (Some file) w) = inr tt →
  ∀ r, r ∈ file → truthy r = true → complete r.
Proof.
  intros Hok r Hr Ht. destruct (complete_dec r) as [Hc|Hc]; [done|].
  destruct (parse_spec word_char lower_char stem _stoplist file w)
    as (res & p' & Hparse & _ & _ & Hko).
  destruct Hko as [k ->]; [eauto|]. by rewrite Hparse in Hok.
Qed.

(** What [convert_intents] leaves in the dictionary of a new [Patterns()]
    for a file read to its end. *)
Lemma convert_intents_dictionary (file : list Intent) (r : Random) :
  fst (parse (Some file) (fresh_world r)) = inr tt →
  _patterns (snd (convert (Some file) (fresh_world r)))
  = finalize (ingest_file stems_of file empty_patterns).
Proof.
  intros Hok. pose proof (parse_ok_complete _ _ Hok) as Hall.
  pose proof (parse_complete file (fresh_world r) Hall) as Hparse.
  by destruct (convert_intents_parsed _ _ _ _ _ _ _ Hparse) as [-> _].
Qed.

Lemma lookup_finalize (p : PatternsDict) (t : string) (e : Entry) :
  tags (finalize p) !! t = Some e →
  answers e = answers (entry_at p t)
  ∧ stems e = sorted_set (stems (entry_at p t)).
Proof.
  unfold finalize, entry_at. simpl. rewrite lookup_fmap.
  destruct (tags p !! t) as [e0|]; [|done]. by intros [= <-].
Qed.

(** The answers of a tag are the responses of all the records that carry
    the tag, one record after the other in the order of the file: a tag
    split over several records gathers the responses of all of them. *)
Theorem convert_intents_answers (file : list Intent) (r : Random)
    (t : string) (e : Entry) :
  fst (parse (Some file) (fresh_world r)) = inr tt →
  tags (_patterns (snd (convert (Some file) (fresh_world r)))) !! t = Some e →
  answers e = responses_of t file.
Proof.
  intros Hok He. rewrite (convert_intents_dictionary _ _ Hok) in He.
  apply lookup_finalize in He as [-> _].
  by destruct (entry_at_ingest_file stems_of file empty_patterns t
                 (parse_ok_complete _ _ Hok)) as (_ & -> & _).
Qed.

(** The tags of the vocabulary are the tags of the records of the file,
    listed in lexicographic order, each once. *)
Theorem convert_intents_tags (file : list Intent) (r : Random) :
  fst (parse (Some file) (fresh_world r)) = inr tt →
  let all_tags := _get_all_tags (_patterns (snd (convert (Some file) (fresh_world r)))) in
  Sorted String.le all_tags
  ∧ NoDup all_tags
  ∧ ∀ t, t ∈ all_tags ↔ ∃ intent, intent ∈ file ∧ tag intent = Some t.
Proof.
  intros Hok all_tags. subst all_tags.
  split; [apply Sorted_sorted|]. split; [apply NoDup_get_all_tags|].
  intros t. rewrite elem_of_get_all_tags, (convert_intents_dictionary _ _ Hok).
  unfold finalize. simpl. rewrite lookup_fmap, fmap_is_Some.
  destruct (entry_at_ingest_file stems_of file empty_patterns t
              (parse_ok_complete _ _ Hok)) as (-> & _).
  split; [|by right]. intros [[? Hempty]|?]; [|done].
  unfold empty_patterns in Hempty. simpl in Hempty.
  by rewrite lookup_empty in Hempty.
Qed.

(** The stems of a tag are the stems of the patterns of all the records
    that carry the tag, sorted, each once. *)
Theorem convert_intents_tag_stems (file : list Intent) (r : Random)
    (t : string) (e : Entry) :
  fst (parse (Some file) (fresh_world r)) = inr tt →
  tags (_patterns (snd (convert (Some file) (fresh_world r)))) !! t = Some e →
  stems e = sorted_set (pattern_stems_of stems_of t file).
Proof.
  intros Hok He. rewrite (convert_intents_dictionary _ _ Hok) in He.
  apply lookup_finalize in He as [_ ->]. apply sorted_set_ext. intros y.
  destruct (entry_at_ingest_file stems_of file empty_patterns t
              (parse_ok_complete _ _ Hok)) as (_ & _ & ->).
  split; [|by right]. intros [Hy|?]; [|done]. by apply elem_of_nil in Hy.
Qed.

End Stored.

(** ** Invariants of ingestion *)

Lemma add_words_keeps (I : PatternsDict → Prop) (t : string) (l : list string)
    (p : PatternsDict) :
  (∀ x p, I p → I (add_word t x p)) → I p → I (add_words t l p).
Proof.
  intros Hword. revert p. induction l as [|x l IH]; intros p Hp; [done|].
  apply IH. by apply Hword.
Qed.

Lemma all_stems_ensure_tag (t : string) (p : PatternsDict) :
  all_stems (ensure_tag t p) = all_stems p.
Proof. unfold ensure_tag. by case_bool_decide. Qed.

Lemma all_stems_add_answers (t : string) (new : list string) (p : PatternsDict) :
  all_stems (add_answers t new p) = all_stems p.
Proof. unfold add_answers. by destruct (tags p !! t). Qed.

Lemma all_stems_add_word_eq (t x : string) (p : PatternsDict) :
  all_stems (add_word t x p)
  = match tags p !! t with
    | None => all_stems p
    | Some _ => if bool_decide (x ∈ all_stems p) then all_stems p
                else all_stems p ++ [x]
    end.
Proof. unfold add_word. by destruct (tags p !! t). Qed.

Lemma NoDup_snoc_fresh (l : list string) (x : string) :
  NoDup l → x ∉ l → NoDup (l ++ [x]).
Proof.
  intros Hl Hx. apply NoDup_app. split; [done|]. split.
  - intros y Hy ->%list_elem_of_singleton. done.
  - apply NoDup_singleton.
Qed.

Lemma stems_distinct_ensure_tag (t : string) (p : PatternsDict) :
  stems_distinct p → stems_distinct (ensure_tag t p).
Proof.
  intros [Hall Htags]. split; [by rewrite all_stems_ensure_tag|].
  intros t' e. rewrite lookup_ensure_tag. case_decide; [|by apply Htags].
  intros [= <-]. unfold entry_at.
  destruct (tags p !! t) as [e|] eqn:He; simpl; [by eapply Htags | constructor].
Qed.

Lemma stems_distinct_add_answers (t : string) (new : list string)
    (p : PatternsDict) :
  stems_distinct p → stems_distinct (add_answers t new p).
Proof.
  intros [Hall Htags]. split; [by rewrite all_stems_add_answers|].
  intros t' e. rewrite lookup_add_answers. case_decide; [|by apply Htags].
  destruct (tags p !! t) as [e0|] eqn:He; [|done]. intros [= <-]. simpl.
  by eapply Htags.
Qed.

Lemma stems_distinct_add_word (t x : string) (p : PatternsDict) :
  stems_distinct p → stems_distinct (add_word t x p).
Proof.
  intros [Hall Htags]. split.
  - rewrite all_stems_add_word_eq. destruct (tags p !! t); [|done].
    case_bool_decide; [done|]. by apply NoDup_snoc_fresh.
  - intros t' e. rewrite lookup_add_word. case_decide; [|by apply Htags].
    destruct (tags p !! t) as [e0|] eqn:He; [|done]. intros [= <-]. simpl.
    case_bool_decide; [by eapply Htags|].
    apply NoDup_snoc_fresh; [by eapply Htags | done].
Qed.

Lemma extends_refl (p : PatternsDict) : extends p p.
Proof. split; [done|]. intros t e He. by exists e. Qed.

Lemma extends_trans (p q r : PatternsDict) :
  extends p q → extends q r → extends p r.
Proof.
  intros [Hpq Htpq] [Hqr Htqr]. split; [by etrans|].
  intros t e He. destruct (Htpq t e He) as (e1 & He1 & Hs1 & Ha1).
  destruct (Htqr t e1 He1) as (e2 & He2 & Hs2 & Ha2).
  exists e2. split; [done|]. split; by etrans.
Qed.

Lemma extends_ensure_tag (t : string) (p : PatternsDict) :
  extends p (ensure_tag t p).
Proof.
  split; [by rewrite all_stems_ensure_tag|].
  intros t' e He. exists e. split; [|done].
  rewrite lookup_ensure_tag. case_decide; [|done].
  subst. unfold entry_at. by rewrite He.
Qed.

Lemma extends_add_answers (t : string) (new : list string) (p : PatternsDict) :
  extends p (add_answers t new p).
Proof.
  split; [by rewrite all_stems_add_answers|].
  intros t' e He. rewrite lookup_add_answers. case_decide; [|by exists e].
  subst. rewrite He. simpl. eexists. split; [done|]. split; [done|].
  simpl. by exists new.
Qed.

Lemma extends_add_word (t x : string) (p : PatternsDict) :
  extends p (add_word t x p).
Proof.
  split.
  - rewrite all_stems_add_word_eq. destruct (tags p !! t); [|done].
    case_bool_decide; [done | by exists [x]].
  - intros t' e He. rewrite lookup_add_word. case_decide; [|by exists e].
    subst. rewrite He. simpl. eexists. split; [done|]. split; [|done].
    simpl. case_bool_decide; [done | by exists [x]].
Qed.

Lemma for_app {A} (l k : list A) (body : A → M unit) (w : World) :
  for_ (l ++ k) body w = (for_ l body ;;; for_ k body) w.
Proof.
  revert w. induction l as [|a l IH]; intros w; simpl; [reflexivity|].
  unfold bind in *. destruct (body a w) as [[e|[]] w1]; [reflexivity|].
  apply IH.
Qed.

Section Invariants.
Context (word_char : ascii → bool) (lower_char : ascii → ascii).
Context (stem : string → string) (_stoplist : list string).

Local Abbreviation stems_of := (_stemming word_char lower_char stem _stoplist).
Local Abbreviation set_intent :=
  (_set_intent word_char lower_char stem _stoplist).
Local Abbreviation parse :=
  (_parse_intents_file word_char lower_char stem _stoplist).
Local Abbreviation convert :=
  (convert_intents word_char lower_char stem _stoplist).

Section Keeps.
Variable I : PatternsDict → Prop.
Hypothesis I_ensure_tag : ∀ t p, I p → I (ensure_tag t p).
Hypothesis I_add_answers : ∀ t new p, I p → I (add_answers t new p).
Hypothesis I_add_word : ∀ t x p, I p → I (add_word t x p).

Lemma set_intent_keeps (intent : Intent) (w : World) :
  I (_patterns w) → I (_patterns (snd (set_intent intent w))).
Proof.
  intros Hw. rewrite set_intent_unfold.
  destruct intent as [[t|] ps r c]; simpl; [|done].
  destruct r as [r|]; [|by apply I_ensure_tag].
  rewrite set_answers_eq by apply ensure_tag_has_tag.
  cbn [_patterns with_patterns].
  destruct ps as [ps|]; simpl; [|by apply I_add_answers, I_ensure_tag].
  rewrite set_stems_eq by (by apply add_answers_has_tag, ensure_tag_has_tag).
  simpl. apply add_words_keeps; [by apply I_add_word|].
  by apply I_add_answers, I_ensure_tag.
Qed.

Lemma parse_keeps (file : option (list Intent)) (w : World) :
  I (_patterns w) → I (_patterns (snd (parse file w))).
Proof.
  destruct file as [file|]; [|done]. unfold _parse_intents_file.
  revert w. induction file as [|intent file IH]; intros w Hw; [done|].
  cbn [for_]. unfold bind. destruct (truthy intent).
  - pose proof (set_intent_keeps intent w Hw) as H1.
    destruct (set_intent intent w) as [[e|[]] w1]; [done|]. by apply IH.
  - cbv [ret]. by apply IH.
Qed.

End Keeps.

(** Ingestion never stores a stem twice: a dictionary without repeated
    stems, in the global list and under every tag, is still so after
    [_parse_intents_file], whether the file is read to its end or not and
    before any sorting. *)
Theorem parse_keeps_stems_distinct (file : option (list Intent)) (w : World) :
  stems_distinct (_patterns w) →
  stems_distinct (_patterns (snd (parse file w))).
Proof.
  apply parse_keeps.
  - apply stems_distinct_ensure_tag.
  - apply stems_distinct_add_answers.
  - apply stems_distinct_add_word.
Qed.

(** Ingestion only appends: whatever the file, and also when reading it
    fails, every tag present before is still present, its stems and its
    answers are kept in place at the head of the longer lists, and so are
    the global stems. *)
Theorem parse_only_appends (file : option (list Intent)) (w : World) :
  extends (_patterns w) (_patterns (snd (parse file w))).
Proof.
  apply (parse_keeps (extends (_patterns w))).
  - intros t p Hp. eapply extends_trans; [done | apply extends_ensure_tag].
  - intros t new p Hp. eapply extends_trans; [done | apply extends_add_answers].
  - intros t x p Hp. eapply extends_trans; [done | apply extends_add_word].
  - apply extends_refl.
Qed.

Lemma set_intent_missing_key (intent : Intent) (w : World) (k : string) :
  missing_key intent = Some k → fst (set_intent intent w) = inl (KeyError k).
Proof.
  rewrite set_intent_unfold. unfold missing_key.
  destruct intent as [[t|] ps r c]; simpl; [|by intros [= <-]].
  destruct r as [r|]; [|by intros [= <-]].
  rewrite set_answers_eq by apply ensure_tag_has_tag.
  destruct ps as [ps|]; [done | by intros [= <-]].
Qed.

(** The error of a failed ingestion names the first key, among [tag],
    [responses] and [patterns] in this order, that the first non-empty
    incomplete record lacks; a record without [patterns] is refused like
    one without [tag] or [responses]. *)
Theorem convert_intents_first_missing_key
    (good rest : list Intent) (bad : Intent) (w : World) (k : string) :
  (∀ r, r ∈ good → truthy r = true → complete r) →
  truthy bad = true →
  missing_key bad = Some k →
  fst (convert (Some (good ++ bad :: rest)) w) = inl (KeyError k).
Proof.
  intros Hgood Htruthy Hmiss.
  pose proof (parse_complete word_char lower_char stem _stoplist good w Hgood)
    as Hrun.
  unfold _parse_intents_file in Hrun.
  assert (∃ w', parse (Some (good ++ bad :: rest)) w = (inl (KeyError k), w'))
    as [w' Hparse].
  { unfold _parse_intents_file. rewrite for_app, (bind_inr _ _ _ _ _ Hrun).
    cbn [for_]. rewrite Htruthy. unfold bind.
    pose proof (set_intent_missing_key bad
                  (with_patterns (ingest_file stems_of good (_patterns w)) w)
                  k Hmiss) as Hbad.
    destruct (set_intent bad _) as [[e|[]] w1]; simplify_eq/=. eauto. }
  by rewrite (convert_intents_failed _ _ _ _ _ _ _ _ Hparse).
Qed.

End Invariants.

(** ** Finalizing twice *)

Lemma finalize_idemp (p : PatternsDict) : finalize (finalize p) = finalize p.
Proof.
  unfold finalize. simpl. f_equal; [|apply sorted_set_idemp].
  apply map_eq. intros t. rewrite !lookup_fmap.
  destruct (tags p !! t) as [e|]; [|done]. simpl.
  unfold sort_entry. simpl. by rewrite sorted_set_idemp.
Qed.

(** [_sort_all_stems] never fails, and running it again on its own result
    changes nothing. *)
Theorem sort_all_stems_idempotent (w : World) :
  fst (_sort_all_stems w) = inr tt
  ∧ _sort_all_stems (snd (_sort_all_stems w)) = _sort_all_stems w.
Proof.
  rewrite !sort_all_stems_eq. split; [done|]. simpl.
  by rewrite finalize_idemp.
Qed.

(** ** Training rows and inference agree *)

Section Contract.
Context (word_char : ascii → bool) (lower_char : ascii → ascii).
Context (stem : string → string) (_stoplist : list string).

Local Abbreviation stems_of := (_stemming word_char lower_char stem _stoplist).
Local Abbreviation encode :=
  (convert_sentence word_char lower_char stem _stoplist).

(** When the global stems list has no duplicate, a sentence whose only
    known stem is [s] is encoded by [convert_sentence] as the very feature
    vector that [_make_training_data] builds for the stem [s]. *)
Theorem training_row_is_sentence_encoding
    (w : World) (sentence t s : string) :
  let p := _patterns w in
  NoDup (all_stems p) →
  s ∈ all_stems p →
  t ∈ _get_all_tags p →
  (∀ x, x ∈ all_stems p → (x ∈ stems_of sentence ↔ x = s)) →
  ∃ row, training_row (_get_all_tags p) (all_stems p) t s = inr row
         ∧ encode sentence w = (inr row.1, w).
Proof.
  intros p Hnd Hs Ht Honly. unfold training_row.
  destruct (index_elem_of _ _ Hs) as (i & -> & Hi).
  destruct (index_elem_of _ _ Ht) as (j & -> & Hj).
  eexists. split; [done|]. simpl.
  unfold convert_sentence, bind, read, ret, _get_all_stems. fold p.
  do 2 f_equal. apply list_eq. intros k. rewrite list_lookup_fmap.
  destruct (decide (k = i)) as [->|Hne].
  - rewrite list_lookup_insert_eq
      by (rewrite length_replicate; by eapply lookup_lt_Some).
    rewrite Hi. simpl. f_equal. apply bool_decide_eq_true_2.
    by apply Honly.
  - rewrite list_lookup_insert_ne by done.
    destruct (all_stems p !! k) as [x|] eqn:Hk; simpl.
    + rewrite lookup_replicate_2 by (by eapply lookup_lt_Some).
      f_equal. apply bool_decide_eq_false_2. intros Hx.
      apply Honly in Hx; [|by eapply list_elem_of_lookup_2]. subst x.
      destruct Hne. by eapply NoDup_lookup.
    + symmetry. apply lookup_replicate_None.
      by apply lookup_ge_None in Hk.
Qed.

End Contract.

(** The position that [_make_training_data] gives to the label of a tag
    ([all_tags.index(tag)]) and the tag that [_get_tag_by_index] reads at
    a position are inverse to each other. *)
Theorem tag_position_round_trip (w : World) :
  let all_tags := _get_all_tags (_patterns w) in
  (∀ t, t ∈ all_tags →
     ∃ j, index (=) all_tags t = inr j
          ∧ _get_tag_by_index (Z.of_nat j) w = (inr t, w))
  ∧ (∀ i t, (0 ≤ i)%Z → _get_tag_by_index i w = (inr t, w) →
       index (=) all_tags t = inr (Z.to_nat i)).
Proof.
  intros all_tags. split.
  - intros t Ht. destruct (index_elem_of _ _ Ht) as (j & Hj & Hlook).
    exists j. split; [done|]. apply get_tag_by_index_in_range; [lia|].
    by rewrite Nat2Z.id.
  - intros i t Hi Hrun. unfold _get_tag_by_index, bind, read in Hrun.
    destruct (decide (0 ≤ i)%Z); [|lia]. fold all_tags in Hrun.
    destruct (all_tags !! Z.to_nat i) as [t'|] eqn:Hlook; [|done].
    cbv [ret] in Hrun. simplify_eq.
    destruct (index_elem_of all_tags t) as (j & Hj & Hlook').
    { by eapply list_elem_of_lookup_2. }
    rewrite Hj. f_equal.
    eapply NoDup_lookup; [apply NoDup_get_all_tags|done..].
Qed.

(** ** The whole answer *)

Lemma answer_for_member (w : World) (t : string) (e : Entry) :
  tags (_patterns w) !! t = Some e → answers e ≠ [] →
  ∃ a, fst (answer_for t w) = inr a ∧ a ∈ answers e.
Proof.
  intros He Hne. cbv [answer_for bind read _get_answers]. rewrite He.
  cbn [lift ret]. by apply choice_nonempty.
Qed.

Lemma answer_for_missing (w : World) (t : string) :
  tags (_patterns w) !! t = None → answer_for t w = (inl AttributeError, w).
Proof.
  intros He. cbv [answer_for bind read _get_answers]. by rewrite He.
Qed.

Section Answer.
Context (word_char : ascii → bool) (lower_char : ascii → ascii).
Context (stem : string → string) (_stoplist : list string).
Context (predict : list bool → list Q).

Local Abbreviation encode :=
  (convert_sentence word_char lower_char stem _stoplist).
Local Abbreviation reply :=
  (answer word_char lower_char stem _stoplist predict).

Lemma answer_eq (w : World) (sentence : string) (v : list bool) (i : Z) :
  encode sentence w = (inr v, w) →
  _predict predict v w = (inr i, w) →
  reply sentence w = choose_answer i w.
Proof.
  intros Hv Hi. unfold answer, _which_intent.
  unfold bind at 1. unfold bind at 1. by rewrite Hv, Hi.
Qed.

Lemma nine_tenths_float : (9 # 10 < float_0_9)%Q.
Proof. reflexivity. Qed.

Lemma below_nine_tenths (l : list Q) :
  (∀ x, x ∈ l → (x <= 9 # 10)%Q) → ∀ x, x ∈ l → (x <= float_0_9)%Q.
Proof.
  intros Hlow x Hx. eapply Qle_trans; [by apply Hlow|].
  apply Qlt_le_weak, nine_tenths_float.
Qed.

Lemma predict_low (w : World) (v : list bool) :
  predict v ≠ [] →
  (∀ x, x ∈ predict v → (x <= float_0_9)%Q) →
  _predict predict v w = (inr (-1)%Z, w).
Proof.
  intros Hne Hlow. unfold _predict.
  destruct (predict v) as [|item l] eqn:Hres; [done|].
  cbv [bind max lift ret]. set (r := max_from item l).
  assert (r ∈ item :: l) as Hr.
  { destruct (max_from_spec l item) as ([Hin|Hin] & _); fold r in Hin.
    - rewrite Hin. left.
    - by right. }
  destruct (list_find_elem_of (λ y, y == r)%Q (item :: l) r Hr) as [[j y] Hfind].
  { apply Qeq_refl. }
  unfold index. rewrite Hfind. cbn [raise ret].
  apply list_find_Some in Hfind as (Hj & _ & _). rewrite Hj.
  rewrite (proj2 (Qgtb_false y float_0_9)); [done|].
  apply Hlow. by eapply list_elem_of_lookup_2.
Qed.

Lemma predict_high (w : World) (v : list bool) (i : nat) (m : Q) :
  predict v !! i = Some m →
  (∀ j x, predict v !! j = Some x → (x <= m)%Q) →
  (∀ j x, j < i → predict v !! j = Some x → (x < m)%Q) →
  (float_0_9 < m)%Q →
  _predict predict v w = (inr (Z.of_nat i), w).
Proof.
  intros Hi Hmax Hfirst Hgt. unfold _predict.
  destruct (predict v) as [|item l] eqn:Hres; [done|].
  cbv [bind max lift ret]. set (r := max_from item l).
  assert (r == m)%Q as Hrm.
  { destruct (max_from_spec l item) as (Hin & Hle & Hall). fold r in Hin, Hle, Hall.
    apply Qle_antisym.
    - assert (r ∈ item :: l) as [k Hk]%list_elem_of_lookup_1; [|by eapply Hmax].
      destruct Hin as [->|Hin]; [left | by right].
    - pose proof (list_elem_of_lookup_2 _ _ _ Hi) as [->|Hm]%elem_of_cons; auto. }
  assert (list_find (λ y, y == r)%Q (item :: l) = Some (i, m)) as Hfind.
  { apply list_find_Some. split; [done|]. split; [done|].
    intros j y Hy Hj Hyr. apply (Qlt_irrefl m).
    rewrite <- Hrm at 1. rewrite <- Hyr. by eapply Hfirst. }
  unfold index. rewrite Hfind. cbn [raise ret]. rewrite Hi.
  by rewrite (proj2 (Qgtb_true _ _) Hgt).
Qed.

(** When no probability of the classifier exceeds [0.9], [answer] returns
    one of the answers of the tag ["noanswer"]. *)
Theorem answer_falls_back
    (w : World) (sentence : string) (v : list bool) (e : Entry) :
  encode sentence w = (inr v, w) →
  predict v ≠ [] →
  (∀ x, x ∈ predict v → (x <= 9 # 10)%Q) →
  tags (_patterns w) !! "noanswer" = Some e →
  answers e ≠ [] →
  ∃ a, fst (reply sentence w) = inr a ∧ a ∈ answers e.
Proof.
  intros Hv Hne Hlow He Hans.
  rewrite (answer_eq w sentence v (-1) Hv
             (predict_low w v Hne (below_nine_tenths _ Hlow))).
  rewrite (choose_answer_unfold w (-1) "noanswer"); [|done].
  by apply answer_for_member.
Qed.

(** When no probability exceeds [0.9] and the vocabulary has no tag
    ["noanswer"], [answer] raises [AttributeError]: nothing stands in for
    the missing tag. *)
Theorem answer_without_noanswer
    (w : World) (sentence : string) (v : list bool) :
  encode sentence w = (inr v, w) →
  predict v ≠ [] →
  (∀ x, x ∈ predict v → (x <= 9 # 10)%Q) →
  tags (_patterns w) !! "noanswer" = None →
  reply sentence w = (inl AttributeError, w).
Proof.
  intros Hv Hne Hlow He.
  rewrite (answer_eq w sentence v (-1) Hv
             (predict_low w v Hne (below_nine_tenths _ Hlow))).
  rewrite (choose_answer_unfold w (-1) "noanswer"); [|done].
  by apply answer_for_missing.
Qed.

(** When the greatest probability [m], first met at position [i], exceeds
    the float [0.9] of the source, [answer] returns one of the answers of
    the [i]-th tag in lexicographic order; if the classifier has more
    outputs than there are tags and [i] is beyond the tag list, it raises
    [IndexError]. *)
Theorem answer_confident
    (w : World) (sentence : string) (v : list bool) (i : nat) (m : Q) :
  encode sentence w = (inr v, w) →
  predict v !! i = Some m →
  (∀ j x, predict v !! j = Some x → (x <= m)%Q) →
  (∀ j x, j < i → predict v !! j = Some x → (x < m)%Q) →
  (float_0_9 < m)%Q →
  (∀ t e, _get_all_tags (_patterns w) !! i = Some t →
          tags (_patterns w) !! t = Some e → answers e ≠ [] →
          ∃ a, fst (reply sentence w) = inr a ∧ a ∈ answers e)
  ∧ (size (tags (_patterns w)) ≤ i → reply sentence w = (inl IndexError, w)).
Proof.
  intros Hv Hi Hmax Hfirst Hgt.
  rewrite (answer_eq w sentence v (Z.of_nat i) Hv
             (predict_high w v i m Hi Hmax Hfirst Hgt)).
  split.
  - intros t e Ht He Hans.
    rewrite (choose_answer_unfold w (Z.of_nat i) t).
    + by apply answer_for_member.
    + apply get_tag_by_index_in_range; [lia|]. by rewrite Nat2Z.id.
  - intros Hsize. unfold choose_answer, bind at 1.
    rewrite get_tag_by_index_out_of_range by lia. done.
Qed.

End Answer.

(** ** The shuffle *)

(** [_make_training_data] loses and repeats no row: the examples it
    returns, features and labels taken pairwise, are a rearrangement of
    the rows that the two loops built. *)
Theorem make_training_data_permutation
    (w : World) (rows : list (list bool * list bool)) :
  training_rows w = (inr rows, w) →
  rows ≠ [] →
  ∃ rows' w',
    _make_training_data w = (inr (rows'.*1, rows'.*2), w')
    ∧ rows' ≡ₚ rows.
Proof.
  intros Hrows Hne.
  destruct (shuffle_from_spec (length rows - 1) rows w)
    as (rows' & w' & Hshuffle & Hperm).
  exists rows', w'. split; [|done].
  unfold _make_training_data. rewrite (bind_inr _ _ _ _ _ Hrows).
  unfold shuffle. rewrite (bind_inr _ _ _ _ _ Hshuffle).
  unfold columns. destruct rows' as [|row rows']; [|done].
  apply Permutation_nil_l in Hperm. by destruct Hne.
Qed.

(** ** Tokens *)

Section Tokens.
Variable word_char : ascii → bool.

Local Abbreviation findall := (findall_from word_char).
Local Abbreviation tokens_of := (tokenize word_char).
Local Abbreviation word_chars := (all_word_chars word_char).

Lemma append_empty_r (s : string) : s +:+ "" = s.
Proof.
  induction s as [|a s IH]; [done|].
  change (String a (s +:+ "") = String a s). by f_equal.
Qed.

Lemma append_snoc (s rest : string) (c : ascii) :
  (s +:+ String c "") +:+ rest = s +:+ String c rest.
Proof.
  induction s as [|a s IH]; [done|].
  change (String a ((s +:+ String c "") +:+ rest) = String a (s +:+ String c rest)).
  by f_equal.
Qed.

Lemma findall_from_word (text cur : string) :
  word_chars text → cur +:+ text ≠ "" → findall cur text = [cur +:+ text].
Proof.
  revert cur. induction text as [|c rest IH]; intros cur Hall Hne; simpl.
  - rewrite append_empty_r in *. by rewrite decide_False.
  - inversion_clear Hall as [|? ? Hc Hrest]. rewrite Hc.
    rewrite IH; [by rewrite append_snoc | done | by rewrite append_snoc].
Qed.

Lemma findall_from_separator (a b cur : string) (c : ascii) :
  word_char c = false →
  findall cur (a +:+ String c b) = findall cur a ++ tokens_of b.
Proof.
  intros Hc. revert cur. induction a as [|x a IH]; intros cur; simpl.
  - by rewrite Hc.
  - destruct (word_char x); [apply IH|].
    rewrite IH. by rewrite app_assoc.
Qed.

(** [tokenize] cuts the text into its runs of word characters: a text
    without word character around a separator is cut at the separator, a
    non-empty text of word characters only is one token, the empty text
    has none. *)
Theorem tokenize_runs :
  tokenize word_char "" = []
  ∧ (∀ text, all_word_chars word_char text → text ≠ "" →
       tokenize word_char text = [text])
  ∧ (∀ a b c, word_char c = false →
       tokenize word_char (a +:+ String c b)
       = tokenize word_char a ++ tokenize word_char b).
Proof.
  split; [done|]. split.
  - intros text Hall Hne. by apply (findall_from_word text "").
  - intros a b c Hc. by apply findall_from_separator.
Qed.

End Tokens.

(** ** The name of the pickle *)

Lemma append_assoc (a b c : string) : (a +:+ b) +:+ c = a +:+ (b +:+ c).
Proof.
  induction a as [|x a IH]; [done|].
  change (String x ((a +:+ b) +:+ c) = String x (a +:+ (b +:+ c))). by f_equal.
Qed.

Lemma chars_app (a b : string) : chars (a +:+ b) = chars a ++ chars b.
Proof.
  induction a as [|x a IH]; [done|].
  change (x :: chars (a +:+ b) = x :: chars a ++ chars b). by f_equal.
Qed.

Lemma str_split_nonempty (sep : ascii) (s : string) : str_split sep s ≠ [].
Proof.
  destruct s as [|c rest]; simpl; [done|].
  destruct (decide (c = sep)); [done|]. by destruct (str_split sep rest).
Qed.

Lemma str_split_sep (sep : ascii) (rest : string) :
  str_split sep (String sep rest) = "" :: str_split sep rest.
Proof. simpl. by rewrite decide_True. Qed.

Lemma str_split_other (sep c : ascii) (rest : string) :
  c ≠ sep →
  ∃ piece pieces,
    str_split sep rest = piece :: pieces
    ∧ str_split sep (String c rest) = String c piece :: pieces.
Proof.
  intros Hne. simpl. rewrite decide_False by done.
  pose proof (str_split_nonempty sep rest) as Hrest.
  destruct (str_split sep rest) as [|piece pieces]; [done|]. eauto.
Qed.

Lemma str_split_app (sep : ascii) (a b : string) :
  str_split sep (a +:+ String sep b) = str_split sep a ++ str_split sep b.
Proof.
  induction a as [|c a IH].
  - change ("" +:+ String sep b) with (String sep b). by rewrite str_split_sep.
  - change (String c a +:+ String sep b) with (String c (a +:+ String sep b)).
    destruct (decide (c = sep)) as [->|Hne].
    + by rewrite !str_split_sep, IH.
    + destruct (str_split_other sep c a Hne) as (p1 & ps1 & H1 & ->).
      destruct (str_split_other sep c (a +:+ String sep b) Hne)
        as (p2 & ps2 & H2 & ->).
      rewrite IH, H1 in H2. by simplify_eq/=.
Qed.

Lemma str_split_none (sep : ascii) (s : string) :
  sep ∉ chars s → str_split sep s = [s].
Proof.
  induction s as [|c s IH]; [done|]. intros Hsep.
  change (chars (String c s)) with (c :: chars s) in Hsep.
  apply not_elem_of_cons in Hsep as [Hne Hs].
  destruct (str_split_other sep c s) as (p & ps & H1 & ->); [done|].
  rewrite IH in H1 by done. by simplify_eq.
Qed.

Lemma str_split_pieces (sep : ascii) (s piece : string) :
  piece ∈ str_split sep s → sep ∉ chars piece.
Proof.
  revert piece. induction s as [|c s IH]; intros piece.
  - intros ->%list_elem_of_singleton. apply not_elem_of_nil.
  - destruct (decide (c = sep)) as [->|Hne].
    + rewrite str_split_sep. intros [->|Hin]%elem_of_cons; [|by apply IH].
      apply not_elem_of_nil.
    + destruct (str_split_other sep c s Hne) as (p & ps & H1 & ->).
      rewrite H1 in IH. intros [->|Hin]%elem_of_cons.
      * change (chars (String c p)) with (c :: chars p).
        apply not_elem_of_cons. split; [done|]. apply IH. left.
      * apply IH. by right.
Qed.

Lemma str_join_cons (sep : string) (c : ascii) (piece : string)
    (pieces : list string) :
  str_join sep (String c piece :: pieces)
  = String c (str_join sep (piece :: pieces)).
Proof. by destruct pieces. Qed.

Lemma str_join_split (sep : ascii) (s : string) :
  str_join (String sep "") (str_split sep s) = s.
Proof.
  induction s as [|c s IH]; [done|].
  destruct (decide (c = sep)) as [->|Hne].
  - rewrite str_split_sep.
    pose proof (str_split_nonempty sep s) as Hne.
    destruct (str_split sep s) as [|p ps] eqn:Hs; [done|].
    change (str_join (String sep "") ("" :: p :: ps))
      with (String sep (str_join (String sep "") (p :: ps))).
    by rewrite IH.
  - destruct (str_split_other sep c s Hne) as (p & ps & H1 & ->).
    rewrite str_join_cons. rewrite H1 in IH. by rewrite IH.
Qed.

Lemma last_str_split (sep : ascii) (s : string) :
  ∃ piece, last (str_split sep s) = Some piece ∧ sep ∉ chars piece.
Proof.
  pose proof (str_split_nonempty sep s) as Hne.
  destruct (last (str_split sep s)) as [piece|] eqn:Hlast.
  - exists piece. split; [done|]. apply (str_split_pieces sep s).
    apply last_Some in Hlast as [l ->]. apply elem_of_app. right. left.
  - by apply last_None in Hlast.
Qed.

(** For the file [name.ext] of any directory ([name] without slash, [ext]
    without dot) the vocabulary is pickled in [name.pkl]; dots in [name] or
    in the directory are kept where they are. *)
Theorem pickle_name_of_file (dir name ext : string) :
  ("/" : ascii) ∉ chars name →
  ("." : ascii) ∉ chars ext →
  pickle_name (dir +:+ "/" +:+ name +:+ "." +:+ ext) = inr (name +:+ ".pkl")
  ∧ pickle_name (name +:+ "." +:+ ext) = inr (name +:+ ".pkl").
Proof.
  intros Hname Hext.
  assert (∀ s, str_join "." (removelast (str_split "." (s +:+ "." +:+ ext))) = s)
    as Hstem.
  { intros s. change (s +:+ "." +:+ ext) with (s +:+ String "." ext).
    rewrite str_split_app, (str_split_none "." ext Hext), removelast_last.
    apply (str_join_split "."). }
  split.
  - unfold pickle_name.
    replace (dir +:+ "/" +:+ name +:+ "." +:+ ext)
      with ((dir +:+ "/" +:+ name) +:+ "." +:+ ext) by (by rewrite !append_assoc).
    rewrite Hstem. change (dir +:+ "/" +:+ name) with (dir +:+ String "/" name).
    rewrite str_split_app, (str_split_none "/" name Hname), last_snoc. done.
  - unfold pickle_name. rewrite Hstem.
    by rewrite (str_split_none "/" name Hname).
Qed.

(** Whatever the path, [convert_intents] pickles into a file of the
    current directory: the name it builds ends in [.pkl] and holds no
    slash; taking the last piece never fails. *)
Theorem pickle_name_in_current_directory (path : string) :
  ∃ name, pickle_name path = inr (name +:+ ".pkl")
          ∧ ("/" : ascii) ∉ chars (name +:+ ".pkl").
Proof.
  unfold pickle_name.
  destruct (last_str_split "/" (str_join "." (removelast (str_split "." path))))
    as (piece & -> & Hpiece).
  exists piece. split; [done|]. rewrite chars_app, elem_of_app.
  intros [?|Hpkl]; [done|]. vm_compute in Hpkl.
  repeat (apply elem_of_cons in Hpkl as [[=]|Hpkl]). by apply elem_of_nil in Hpkl.
Qed.

(** A path without any dot has no extension to drop: everything before
    the last dot is nothing, and the pickle is named [.pkl]. *)
Theorem pickle_name_without_dot (path : string) :
  ("." : ascii) ∉ chars path → pickle_name path = inr ".pkl".
Proof.
  intros Hdot. unfold pickle_name. by rewrite (str_split_none "." path Hdot).
Qed.

(** ** Sanitizing a message *)

Lemma str_replace_app (old : N) (new l k : list N) :
  str_replace old new (l ++ k) = str_replace old new l ++ str_replace old new k.
Proof. apply bind_app. Qed.

Lemma str_replace_cons (old : N) (new : list N) (c : N) (s : list N) :
  str_replace old new (c :: s)
  = (if decide (c = old) then new else [c]) ++ str_replace old new s.
Proof. done. Qed.

Lemma str_replace_absent (old : N) (new s : list N) :
  old ∉ s → str_replace old new s = s.
Proof.
  induction s as [|c s IH]; [done|]. intros [Hne Hs]%not_elem_of_cons.
  rewrite str_replace_cons, decide_False by done. by rewrite IH.
Qed.

Lemma elem_of_str_replace (old : N) (new s : list N) (c : N) :
  c ∈ str_replace old new s → (c ∈ s ∧ c ≠ old) ∨ c ∈ new.
Proof.
  induction s as [|x s IH]; [by intros ?%elem_of_nil|].
  rewrite str_replace_cons, elem_of_app. intros [Hx|Hs].
  - case_decide; [by right|]. apply list_elem_of_singleton in Hx as ->.
    left. split; [left | done].
  - destruct (IH Hs) as [[? ?]|?]; [|by right]. left. split; [by right | done].
Qed.

Lemma escape_app (l k : list N) : escape (l ++ k) = escape l ++ escape k.
Proof. unfold escape. cbv zeta. by rewrite !str_replace_app. Qed.

Lemma escape_one (c : N) : escape [c] = escape_char c.
Proof.
  unfold escape, escape_char. cbv zeta.
  destruct (decide (c = 38%N)) as [->|H38]; [done|].
  rewrite (str_replace_absent 38) by (by apply not_elem_of_cons; split; [|apply not_elem_of_nil]).
  destruct (decide (c = 60%N)) as [->|H60]; [done|].
  rewrite (str_replace_absent 60) by (by apply not_elem_of_cons; split; [|apply not_elem_of_nil]).
  destruct (decide (c = 62%N)) as [->|H62]; [done|].
  rewrite (str_replace_absent 62) by (by apply not_elem_of_cons; split; [|apply not_elem_of_nil]).
  destruct (decide (c = 34%N)) as [->|H34]; [done|].
  rewrite (str_replace_absent 34) by (by apply not_elem_of_cons; split; [|apply not_elem_of_nil]).
  destruct (decide (c = 39%N)) as [->|H39]; [done|].
  by rewrite (str_replace_absent 39) by (by apply not_elem_of_cons; split; [|apply not_elem_of_nil]).
Qed.

Lemma escape_cons (c : N) (s : list N) :
  escape (c :: s) = escape_char c ++ escape s.
Proof. by rewrite <- escape_one, <- escape_app. Qed.

Lemma length_escape_char (c : N) : length (escape_char c) ≤ 6.
Proof. unfold escape_char. repeat case_decide; vm_compute; lia. Qed.

Lemma length_escape (s : list N) : length (escape s) ≤ 6 * length s.
Proof.
  induction s as [|c s IH]; [done|].
  rewrite escape_cons, length_app. pose proof (length_escape_char c). simpl. lia.
Qed.

Lemma escape_char_safe (c x : N) :
  x ∈ escape_char c → x ∈ [60; 62; 34; 39; 92]%N → x = 92%N ∧ c = 92%N.
Proof.
  unfold escape_char. intros Hx Hbad.
  repeat case_decide; subst;
    try (vm_compute in Hx;
         repeat (apply elem_of_cons in Hx as [->|Hx];
                 [by repeat (apply elem_of_cons in Hbad as [[=]|Hbad];
                             try by apply elem_of_nil in Hbad)|]);
         by apply elem_of_nil in Hx).
Qed.

Lemma escape_safe (s : list N) (x : N) :
  x ∈ escape s → x ∈ [60; 62; 34; 39; 92]%N → x = 92%N ∧ 92%N ∈ s.
Proof.
  induction s as [|c s IH]; [by intros ?%elem_of_nil|].
  rewrite escape_cons, elem_of_app. intros [Hc|Hs] Hbad.
  - destruct (escape_char_safe c x Hc Hbad) as [-> ->]. split; [done|left].
  - destruct (IH Hs Hbad) as [-> ?]. split; [done | by right].
Qed.

Section Sanitized.
Variable isspace : N → bool.

Lemma elem_of_lstrip (s : list N) (c : N) : c ∈ lstrip isspace s → c ∈ s.
Proof.
  induction s as [|x s IH]; [done|]. simpl.
  destruct (isspace x); [|done]. intros Hc. right. by apply IH.
Qed.

Lemma elem_of_strip (s : list N) (c : N) : c ∈ strip isspace s → c ∈ s.
Proof.
  unfold strip. rewrite elem_of_reverse. intros Hc%elem_of_lstrip.
  rewrite elem_of_reverse in Hc. by apply elem_of_lstrip in Hc.
Qed.

(** What [sanitize] returns never holds [<], [>], a double or single
    quote, or a backslash. *)
Theorem sanitize_removes_markup (msg : list N) :
  Forall (λ c, c ∉ [60; 62; 34; 39; 92]%N) (sanitize isspace msg).
Proof.
  apply Forall_forall. intros c Hc Hbad.
  destruct msg as [|c0 msg]; [by apply elem_of_nil in Hc|].
  unfold sanitize in Hc. cbv zeta in Hc.
  destruct (escape_safe _ _ Hc Hbad) as [-> H92].
  by apply elem_of_str_replace in H92 as [[_ ?]|?%elem_of_nil].
Qed.

(** At most 256 code points of the stripped message are kept (the
    docstring says 255) and each gives at most six, so the result is at
    most 1536 long. *)
Theorem sanitize_length (msg : list N) :
  length (sanitize isspace msg) ≤ 1536.
Proof.
  destruct msg as [|c0 msg]; [simpl; lia|].
  unfold sanitize. cbv zeta.
  etrans; [apply length_escape|].
  assert (∀ l, length (str_replace 92 [] l) ≤ length l) as Hdrop.
  { intros l. induction l as [|x l IH]; [done|].
    rewrite str_replace_cons, length_app. case_decide; simpl; lia. }
  pose proof (Hdrop (take 256 (strip isspace (c0 :: msg)))) as H1.
  pose proof (firstn_le_length 256 (strip isspace (c0 :: msg))) as H2.
  lia.
Qed.

(** A message without [&], [<], [>], quote or backslash is only stripped
    of the white space at its two ends and cut to its first 256 code
    points. *)
Theorem sanitize_plain_text (msg : list N) :
  (∀ c, c ∈ msg → ¬ special c) →
  sanitize isspace msg = take 256 (strip isspace msg).
Proof.
  intros Hplain. destruct msg as [|c0 msg]; [done|].
  unfold sanitize. cbv zeta.
  set (kept := take 256 (strip isspace (c0 :: msg))).
  assert (∀ c, c ∈ kept → ¬ special c) as Hkept.
  { intros c Hc. apply Hplain. apply elem_of_strip.
    by apply (subseteq_take 256). }
  assert (∀ c, special c → c ∉ kept) as Hout.
  { intros c Hc Hin. by apply (Hkept c). }
  unfold escape. cbv zeta.
  rewrite (str_replace_absent 92), (str_replace_absent 38),
    (str_replace_absent 60), (str_replace_absent 62),
    (str_replace_absent 34), (str_replace_absent 39);
    first [done | apply Hout; unfold special; set_solver].
Qed.

End Sanitized.

(** ** Loading *)

Section Loading.
Variable isfile : string → bool.
Variable nltk_setup : exn + unit.
Variable pickle_load : string → exn + PatternsDict.
Context {Model : Type}.
Variable load_model : string → exn + Model.
Variable Sequential : Model.

Local Abbreviation init :=
  (ChatBotBrain_init isfile nltk_setup pickle_load load_model Sequential).

(** A [ChatBotBrain] is built from both files or from none.  With the two
    paths empty and NLTK set up, the instance has the empty vocabulary and
    the model [Sequential()].  With the two files present, NLTK set up and
    both loaders succeeding, it has the pickled vocabulary and the loaded
    model.  With some path given and the two files not both present, a
    single path among them, the construction raises [FileNotFoundError],
    before NLTK is set up or anything is loaded.  And these are the only
    ways to an instance: when one is built, either both paths are empty,
    or both files are present and each loader has returned its part, so
    that a file the loaders refuse fails the construction. *)
Theorem ChatBotBrain_init_both_or_neither
    (model_path pickle_path : string) (verbose : bool) :
  isfile "" = false →
  let built := init model_path pickle_path verbose in
  (model_path = "" ∧ pickle_path = "" → nltk_setup = inr tt →
     built = inr (mkChatBotBrain verbose empty_patterns Sequential))
  ∧ (∀ patterns model,
       isfile model_path = true ∧ isfile pickle_path = true →
       nltk_setup = inr tt →
       pickle_load pickle_path = inr patterns →
       load_model model_path = inr model →
       built = inr (mkChatBotBrain verbose patterns model))
  ∧ (¬ (model_path = "" ∧ pickle_path = "") →
     ¬ (isfile model_path = true ∧ isfile pickle_path = true) →
     built = inl FileNotFoundError)
  ∧ (∀ brain, built = inr brain →
       _verbose brain = verbose
       ∧ nltk_setup = inr tt
       ∧ ((model_path = "" ∧ pickle_path = ""
           ∧ brain_patterns brain = empty_patterns ∧ _model brain = Sequential)
          ∨ (isfile model_path = true ∧ isfile pickle_path = true
             ∧ pickle_load pickle_path = inr (brain_patterns brain)
             ∧ load_model model_path = inr (_model brain)))).
Proof.
  intros Hempty built. subst built. unfold ChatBotBrain_init, Patterns_init.
  split; [|split; [|split]].
  - intros [-> ->] ->. rewrite decide_False by (by intros [?|?]).
    by rewrite !decide_False by (by intros ?).
  - intros patterns model [Hm Hp] -> Hpickle Hmodel.
    assert (pickle_path ≠ "") as Hne by (intros ->; congruence).
    assert (model_path ≠ "") as Hne' by (intros ->; congruence).
    rewrite decide_True by (by right). simpl. rewrite Hm, Hp.
    rewrite !decide_True by done. by rewrite Hpickle, Hmodel.
  - intros Hsome Hnot.
    rewrite decide_True.
    2:{ destruct (decide (model_path = "")) as [->|]; [|by left].
        right. intros ->. by destruct Hsome. }
    simpl. destruct (isfile model_path) eqn:Hm; [|done].
    destruct (isfile pickle_path) eqn:Hp; [|done]. by destruct Hnot.
  - intros brain.
    destruct (decide (model_path ≠ "" ∨ pickle_path ≠ "")) as [Hsome|Hnone].
    + simpl. destruct (isfile model_path) eqn:Hm; [|done].
      destruct (isfile pickle_path) eqn:Hp; [|done].
      destruct nltk_setup as [e|[]]; [done|].
      assert (pickle_path ≠ "") as Hne by (intros ->; congruence).
      assert (model_path ≠ "") as Hne' by (intros ->; congruence).
      rewrite !decide_True by done.
      destruct (pickle_load pickle_path) as [e|patterns]; [done|].
      destruct (load_model model_path) as [e|model]; [done|].
      intros [= <-]. split; [done|]. split; [done|]. by right.
    + destruct nltk_setup as [e|[]]; [done|].
      destruct (decide (pickle_path = "")) as [->|Hp];
        [|destruct Hnone; by right].
      destruct (decide (model_path = "")) as [->|Hm];
        [|destruct Hnone; by left].
      rewrite !decide_False by (by intros ?).
      intros [= <-]. split; [done|]. split; [done|]. by left.
Qed.

End Loading.

(** ** Witnesses of the further properties *)

Ltac by_decide := refine (bool_decide_unpack _ _); vm_compute; exact I.

Lemma convert_intents_answers_witness :
  fst (_parse_intents_file ascii_word ascii_lower (λ s, s) stoplist_excerpt
         (Some split_file) (fresh_world counting)) = inr tt
  ∧ tags (_patterns (snd (run_convert split_file))) !! "hello_intent"
    = Some {| stems := ["hello"; "hi"]; answers := ["Hey you !"; "Hello."] |}
  ∧ ["Hey you !"; "Hello."] = responses_of "hello_intent" split_file.
Proof.
  split; [by vm_compute|]. split; [by vm_compute|].
  apply (convert_intents_answers ascii_word ascii_lower (λ s, s)
           stoplist_excerpt split_file counting "hello_intent"
           {| stems := ["hello"; "hi"]; answers := ["Hey you !"; "Hello."] |});
    by vm_compute.
Defined.

Lemma convert_intents_tags_witness :
  fst (_parse_intents_file ascii_word ascii_lower (λ s, s) stoplist_excerpt
         (Some split_file) (fresh_world counting)) = inr tt
  ∧ Sorted String.le (_get_all_tags (_patterns (snd (run_convert split_file))))
  ∧ NoDup (_get_all_tags (_patterns (snd (run_convert split_file))))
  ∧ ∀ t, t ∈ _get_all_tags (_patterns (snd (run_convert split_file)))
         ↔ ∃ intent, intent ∈ split_file ∧ tag intent = Some t.
Proof.
  split; [by vm_compute|].
  apply (convert_intents_tags ascii_word ascii_lower (λ s, s)
           stoplist_excerpt split_file counting).
  by vm_compute.
Defined.

Lemma convert_intents_tag_stems_witness :
  fst (_parse_intents_file ascii_word ascii_lower (λ s, s) stoplist_excerpt
         (Some split_file) (fresh_world counting)) = inr tt
  ∧ tags (_patterns (snd (run_convert split_file))) !! "hello_intent"
    = Some {| stems := ["hello"; "hi"]; answers := ["Hey you !"; "Hello."] |}
  ∧ ["hello"; "hi"]
    = sorted_set (pattern_stems_of
                    (_stemming ascii_word ascii_lower (λ s, s) stoplist_excerpt)
                    "hello_intent" split_file).
Proof.
  split; [by vm_compute|]. split; [by vm_compute|].
  apply (convert_intents_tag_stems ascii_word ascii_lower (λ s, s)
           stoplist_excerpt split_file counting "hello_intent"
           {| stems := ["hello"; "hi"]; answers := ["Hey you !"; "Hello."] |});
    by vm_compute.
Defined.

Lemma parse_keeps_stems_distinct_witness :
  stems_distinct (_patterns (fresh_world counting))
  ∧ stems_distinct
      (_patterns (snd (_parse_intents_file ascii_word ascii_lower (λ s, s)
                         stoplist_excerpt (Some split_file)
                         (fresh_world counting)))).
Proof.
  assert (stems_distinct (_patterns (fresh_world counting))) as Hfresh.
  { split; [constructor|]. intros t e He. simpl in He.
    by rewrite lookup_empty in He. }
  split; [exact Hfresh|].
  exact (parse_keeps_stems_distinct ascii_word ascii_lower (λ s, s)
           stoplist_excerpt (Some split_file) (fresh_world counting) Hfresh).
Defined.

Lemma convert_intents_first_missing_key_witness :
  truthy {| tag := Some "bye_intent"; patterns := Some ["bye"];
            responses := None; context := None |} = true
  ∧ missing_key {| tag := Some "bye_intent"; patterns := Some ["bye"];
                   responses := None; context := None |} = Some "responses"
  ∧ fst (run_convert broken_file) = inl (KeyError "responses").
Proof.
  split; [reflexivity|]. split; [reflexivity|].
  apply (convert_intents_first_missing_key ascii_word ascii_lower (λ s, s)
           stoplist_excerpt
           [ {| tag := Some "hello_intent"; patterns := Some ["Hello !"; "hi"];
                responses := Some ["Hey you !"; "Hello."]; context := Some [] |} ]
           []
           {| tag := Some "bye_intent"; patterns := Some ["bye"];
              responses := None; context := None |}
           (fresh_world counting) "responses").
  - intros r ->%list_elem_of_singleton _. unfold complete. simpl. eauto.
  - reflexivity.
  - reflexivity.
Defined.

Lemma convert_intents_training_data_witness :
  fst (_parse_intents_file ascii_word ascii_lower (λ s, s) stoplist_excerpt
         (Some docstring_file) (fresh_world counting)) = inr tt
  ∧ 0 < example_count (_patterns docstring_world)
  ∧ ∃ xs ys,
      fst (run_convert docstring_file) = inr (xs, ys)
      ∧ length xs = example_count (_patterns docstring_world)
      ∧ length ys = example_count (_patterns docstring_world)
      ∧ Forall2 (λ x y, ∃ t e s,
                   tags (_patterns docstring_world) !! t = Some e
                   ∧ s ∈ stems e
                   ∧ example_of (_patterns docstring_world) t s (x, y)) xs ys.
Proof.
  split; [by vm_compute|]. split; [vm_compute; lia|].
  apply (convert_intents_training_data ascii_word ascii_lower (λ s, s)
           stoplist_excerpt docstring_file counting).
  - by vm_compute.
  - vm_compute. lia.
Defined.

Lemma make_training_data_permutation_witness :
  training_rows docstring_world
  = (inr [([true; false], [true; false]); ([false; true], [true; false])],
     docstring_world)
  ∧ ∃ rows' w',
      _make_training_data docstring_world = (inr (rows'.*1, rows'.*2), w')
      ∧ rows' ≡ₚ [([true; false], [true; false]); ([false; true], [true; false])].
Proof.
  assert (training_rows docstring_world
          = (inr [([true; false], [true; false]); ([false; true], [true; false])],
             docstring_world)) as Hrows by (by vm_compute).
  split; [exact Hrows|].
  by apply (make_training_data_permutation docstring_world _ Hrows).
Defined.

Lemma training_row_is_sentence_encoding_witness :
  NoDup (all_stems (_patterns docstring_world))
  ∧ ∃ row,
      training_row (_get_all_tags (_patterns docstring_world))
        (all_stems (_patterns docstring_world)) "hello_intent" "hello" = inr row
      ∧ convert_sentence ascii_word ascii_lower (λ s, s) stoplist_excerpt
          "Hello World !" docstring_world = (inr row.1, docstring_world).
Proof.
  assert (NoDup (all_stems (_patterns docstring_world))) as Hnd by by_decide.
  split; [exact Hnd|].
  apply (training_row_is_sentence_encoding ascii_word ascii_lower (λ s, s)
           stoplist_excerpt docstring_world "Hello World !"
           "hello_intent" "hello" Hnd).
  - by_decide.
  - by_decide.
  - intros x Hx. vm_compute in Hx.
    apply elem_of_cons in Hx as [->|Hx]; [split; [done | intros _; by_decide]|].
    apply elem_of_cons in Hx as [->|Hx]; [|by apply elem_of_nil in Hx].
    split; [|done]. intros Hin. exfalso. revert Hin. by_decide.
Defined.

Lemma tag_position_round_trip_witness :
  (∃ j, index (=) (_get_all_tags (_patterns docstring_world)) "noanswer" = inr j
        ∧ _get_tag_by_index (Z.of_nat j) docstring_world
          = (inr "noanswer", docstring_world))
  ∧ index (=) (_get_all_tags (_patterns docstring_world)) "hello_intent"
    = inr (Z.to_nat 0).
Proof.
  split.
  - apply (proj1 (tag_position_round_trip docstring_world)). by_decide.
  - apply (proj2 (tag_position_round_trip docstring_world)); [lia | by vm_compute].
Defined.

Lemma answer_falls_back_witness :
  ∃ a, fst (answer ascii_word ascii_lower (λ s, s) stoplist_excerpt
              (λ _, [1 # 2; 1 # 2]) "Hello World !" docstring_world) = inr a
       ∧ a ∈ ["Je n'ai pas compris..."].
Proof.
  apply (answer_falls_back ascii_word ascii_lower (λ s, s) stoplist_excerpt
           (λ _, [1 # 2; 1 # 2]) docstring_world "Hello World !" [true; false]
           {| stems := []; answers := ["Je n'ai pas compris..."] |}).
  - by vm_compute.
  - done.
  - intros x Hx. simpl in Hx.
    repeat (apply elem_of_cons in Hx as [->|Hx]; [by vm_compute|]).
    by apply elem_of_nil in Hx.
  - by vm_compute.
  - done.
Defined.

Lemma answer_without_noanswer_witness :
  tags (_patterns hello_only_world) !! "noanswer" = None
  ∧ answer ascii_word ascii_lower (λ s, s) stoplist_excerpt
      (λ _, [1 # 2]) "bonjour" hello_only_world
    = (inl AttributeError, hello_only_world).
Proof.
  split; [by vm_compute|].
  apply (answer_without_noanswer ascii_word ascii_lower (λ s, s)
           stoplist_excerpt (λ _, [1 # 2]) hello_only_world "bonjour"
           [false; false]).
  - by vm_compute.
  - done.
  - intros x Hx. simpl in Hx.
    repeat (apply elem_of_cons in Hx as [->|Hx]; [by vm_compute|]).
    by apply elem_of_nil in Hx.
  - by vm_compute.
Defined.

Lemma answer_confident_witness :
  (∃ a, fst (answer ascii_word ascii_lower (λ s, s) stoplist_excerpt
               (λ _, [95 # 100; 5 # 100]) "Hello World !" docstring_world)
        = inr a
        ∧ a ∈ ["Hey you !"; "Hello."])
  ∧ answer ascii_word ascii_lower (λ s, s) stoplist_excerpt
      (λ _, [0; 0; 1]%Q) "Hello World !" docstring_world
    = (inl IndexError, docstring_world).
Proof.
  split.
  - apply (proj1 (answer_confident ascii_word ascii_lower (λ s, s)
                    stoplist_excerpt (λ _, [95 # 100; 5 # 100])
                    docstring_world "Hello World !" [true; false] 0 (95 # 100)
                    ltac:(by vm_compute) ltac:(reflexivity)
                    ltac:(intros [|[|j]] x Hx; simplify_eq/=; by vm_compute)
                    ltac:(intros j x Hj; lia) ltac:(by vm_compute))
             "hello_intent"
             {| stems := ["hello"; "hi"]; answers := ["Hey you !"; "Hello."] |}).
    + by vm_compute.
    + by vm_compute.
    + done.
  - apply (proj2 (answer_confident ascii_word ascii_lower (λ s, s)
                    stoplist_excerpt (λ _, [0; 0; 1]%Q)
                    docstring_world "Hello World !" [true; false] 2 1%Q
                    ltac:(by vm_compute) ltac:(reflexivity)
                    ltac:(intros [|[|[|j]]] x Hx; simplify_eq/=; by vm_compute)
                    ltac:(intros [|[|j]] x Hj Hx; simplify_eq/=;
                          first [lia | by vm_compute])
                    ltac:(by vm_compute))).
    vm_compute. lia.
Defined.

Lemma tokenize_runs_witness :
  tokenize ascii_word "hello" = ["hello"]
  ∧ tokenize ascii_word ("Hello" +:+ String " " "World !")
    = tokenize ascii_word "Hello" ++ tokenize ascii_word "World !".
Proof.
  split.
  - apply (proj1 (proj2 (tokenize_runs ascii_word))); [|done].
    unfold all_word_chars. vm_compute. repeat constructor.
  - by apply (proj2 (proj2 (tokenize_runs ascii_word))).
Defined.

Lemma pickle_name_of_file_witness :
  pickle_name "tests/assets/test_intents.json" = inr "test_intents.pkl"
  ∧ pickle_name "my.intents.json" = inr "my.intents.pkl".
Proof.
  split.
  - apply (proj1 (pickle_name_of_file "tests/assets" "test_intents" "json"
                    ltac:(by_decide) ltac:(by_decide))).
  - apply (proj2 (pickle_name_of_file "" "my.intents" "json"
                    ltac:(by_decide) ltac:(by_decide))).
Defined.

Lemma pickle_name_without_dot_witness :
  pickle_name "assets/intents" = inr ".pkl".
Proof. apply pickle_name_without_dot. by_decide. Defined.

Lemma sanitize_plain_text_witness :
  sanitize ascii_space (codes "  Hello World !  ") = codes "Hello World !".
Proof.
  rewrite (sanitize_plain_text ascii_space (codes "  Hello World !  "));
    [by vm_compute|].
  intros c Hc. unfold special. revert c Hc. apply Forall_forall. by_decide.
Defined.

Lemma ChatBotBrain_init_both_or_neither_witness :
  two_files "" = false
  ∧ ChatBotBrain_init two_files (inr tt) two_files_pickle two_files_model
      "Sequential" "mymodel.h5" "myintents.pkl" true
    = inr (mkChatBotBrain true (_patterns docstring_world) "mymodel.h5")
  ∧ ChatBotBrain_init two_files (inr tt) two_files_pickle two_files_model
      "Sequential" "mymodel.h5" "" true
    = inl FileNotFoundError
  ∧ ∀ brain,
      ChatBotBrain_init two_files (inr tt) two_files_pickle two_files_model
        "Sequential" "myintents.pkl" "mymodel.h5" true ≠ inr brain.
Proof.
  split; [reflexivity|]. split; [|split].
  - apply (proj1 (proj2 (ChatBotBrain_init_both_or_neither two_files (inr tt)
                           two_files_pickle two_files_model "Sequential"
                           "mymodel.h5" "myintents.pkl" true eq_refl)));
      [by split|reflexivity..].
  - apply (proj1 (proj2 (proj2 (ChatBotBrain_init_both_or_neither two_files
                                  (inr tt) two_files_pickle two_files_model
                                  "Sequential" "mymodel.h5" "" true eq_refl)))).
    + by intros [? _].
    + by intros [_ ?].
  - intros brain Hbuilt.
    destruct (proj2 (proj2 (proj2 (ChatBotBrain_init_both_or_neither two_files
                                     (inr tt) two_files_pickle two_files_model
                                     "Sequential" "myintents.pkl" "mymodel.h5"
                                     true eq_refl))) brain Hbuilt)
      as (_ & _ & [(? & _)|(_ & _ & Hpickle & _)]); [done|].
    by vm_compute in Hpickle.
Defined.
